(** * The incident monitor WebSocket client (examples/websocket/python-client.py)

    A shallow embedding of [IncidentMonitor] and [main].  The program is a
    set of asyncio coroutines over the [gql] client library: the coroutines
    are embedded as resumable transition functions, one transition per
    resumption by the event loop, and the library and the network are the
    environment that chooses the resumptions. *)

From stdpp Require Import base list strings gmap pretty.

(** ** Python values *)

(** The values that travel in subscription results: [None], strings, lists
    and dicts with string keys. *)
#[warnings="-register-all"]
Inductive value : Type :=
| VNone
| VStr (s : string)
| VList (l : list value)
| VDict (d : gmap string value).

(** Exception classes.  The first group derives from [Exception]; the second
    derives from [BaseException] only. *)
Inductive exc_class : Type :=
| KeyError
| TypeError
| TransportClosed            (* gql: the connection could not be opened or was lost *)
| TransportAlreadyConnected  (* gql: connect on a transport that is connected *)
| TransportQueryError        (* gql: the server sent an error frame for this subscription id *)
| OtherException             (* any other subclass of Exception *)
| CancelledError
| KeyboardInterrupt
| SystemExit.

Record exn : Type := Exn { exn_class : exc_class; exn_msg : string }.

(** [isinstance(e, Exception)], the test made by [except Exception]. *)
Definition isinstance_Exception (e : exn) : bool :=
  match exn_class e with
  | CancelledError | KeyboardInterrupt | SystemExit => false
  | _ => true
  end.

(** Failures of the connection itself: open, send or receive. *)
Definition is_transport_failure (e : exn) : bool :=
  match exn_class e with
  | TransportClosed | TransportAlreadyConnected => true
  | _ => false
  end.

(** A failure scoped to one subscription: the server's error frame for its id. *)
Definition is_subscription_error (e : exn) : bool :=
  match exn_class e with
  | TransportQueryError => true
  | _ => false
  end.

(** [v[k]] for a string key [k]. *)
Definition getitem (v : value) (k : string) : exn + value :=
  match v with
  | VDict d =>
      match d !! k with
      | Some x => inr x
      | None => inl (Exn KeyError k)
      end
  | VNone => inl (Exn TypeError "'NoneType' object is not subscriptable")
  | VStr _ => inl (Exn TypeError "string indices must be integers")
  | VList _ => inl (Exn TypeError "list indices must be integers or slices, not str")
  end.

(** [os.getenv(key, default)] *)
Definition getenv (environ : gmap string string) (key default : string) : string :=
  match environ !! key with
  | Some v => v
  | None => default
  end.

(** ** Observable effects *)

Inductive level : Type := INFO | ERROR.

(** An interpolated argument of a log line. *)
Inductive arg : Type :=
| AVal (v : value)
| AExn (e : exn).

(** [gql.transport.websockets.WebsocketsTransport], as configured by its
    constructor; [init_payload] is the payload of the connection_init frame
    of every handshake this transport makes. *)
Record WebsocketsTransport : Type := {
  url : string;
  init_payload : gmap string string;
  subprotocols : list string
}.

Record Client : Type := {
  client_transport : WebsocketsTransport;
  fetch_schema_from_transport : bool
}.

Inductive effect : Type :=
| Log (lvl : level) (fmt : string) (args : list arg)
    (* logger.info / logger.error of an f-string: the text with {} for each
       interpolated expression, and the values interpolated *)
| Connect (t : WebsocketsTransport)
    (* entering [async with client]: the client asks its transport to open
       the connection and make the handshake *)
| Subscribe (document : string) (variable_values : option (gmap string value))
    (* session.subscribe(document, variable_values=...) *)
| Close
    (* leaving [async with client]: the client closes its transport *)
| Call (payload : value)
    (* handler(payload) *).

(** ** class IncidentMonitor *)

Record IncidentMonitor : Type := {
  transport : WebsocketsTransport;
  client : Client;
  running : bool
}.

(** The library's constant [WebsocketsTransport.GRAPHQLWS_SUBPROTOCOL]. *)
Definition GRAPHQLWS_SUBPROTOCOL : string := "graphql-transport-ws".

Module IncidentMonitor.

(** [__init__(self, ws_url, auth_token)] *)
Definition __init__ (ws_url auth_token : string) : IncidentMonitor :=
  let transport :=
    {| url := ws_url;
       init_payload := {[ "Authorization" := "Bearer " +:+ auth_token ]};
       subprotocols := [GRAPHQLWS_SUBPROTOCOL] |} in
  let client :=
    {| client_transport := transport;
       fetch_schema_from_transport := false |} in
  {| transport := transport; client := client; running := false |}.

(** [monitor.running = b] *)
Definition set_running (b : bool) (self : IncidentMonitor) : IncidentMonitor :=
  {| transport := transport self; client := client self; running := b |}.

(** [stop(self)]: the new monitor and what the call emits. *)
Definition stop (self : IncidentMonitor) : IncidentMonitor * list effect :=
  (set_running false self, [Log INFO "Stopping incident monitor..." []]).

End IncidentMonitor.

(** ** Consumer handlers *)

(** A handler is consumer code called as [handler(payload)].  It returns,
    raises, or never returns; what it does may depend on the calls it has
    already received.  It is handed the payload and nothing else: like the
    three handlers of [main], which only print, it does not reach the
    monitor. *)
Inductive handler_outcome : Type :=
| Returns
| Raises (e : exn)
| NeverReturns.

Definition Handler : Type := list value -> value -> handler_outcome.

(** ** The subscription coroutines *)

(** The three [subscribe_to_*] methods have the same control skeleton

      logger.info(start line)
      try:
          async with self.client as session:
              async for result in session.subscribe(document, ...):
                  payload = result[key]; logger.info(line about payload)
                  handler(payload)
                  if not self.running: break
      except Exception as e:
          logger.error(error line)

    and differ in the document, the variables, the lines logged and the key.
    [coroutine] holds what differs; [resume] below is the skeleton. *)
Record coroutine : Type := {
  start_line : effect;
  document : string;
  variable_values : option (gmap string value);
  on_result : value -> exn + (effect * value);
  handler : Handler;
  error_fmt : string
}.

Definition severities_value (severities : list string) : value :=
  VList (VStr <$> severities).

Definition subscribe_to_critical_incidents (handler : Handler) : coroutine :=
  {| start_line := Log INFO "Subscribing to critical incidents..." [];
     document := "
            subscription {
              criticalIncidents {
                id
                title
                description
                severity
                state
                createdAt
                affectedResources
              }
            }
        ";
     variable_values := None;
     on_result := fun result =>
       match getitem result "criticalIncidents" with
       | inl e => inl e
       | inr incident =>
           match getitem incident "id" with
           | inl e => inl e
           | inr id =>
               inr (Log INFO "🚨 Critical incident: {}" [AVal id], incident)
           end
       end;
     handler := handler;
     error_fmt := "Critical incidents subscription error: {}" |}.

Definition subscribe_to_incident_updates
    (severities : list string) (handler : Handler) : coroutine :=
  {| start_line :=
       Log INFO "Subscribing to incident updates (severities: {})..."
         [AVal (severities_value severities)];
     document := "
            subscription IncidentUpdates($severities: [Severity!]) {
              incidentUpdates(severities: $severities, activeOnly: true) {
                updateType
                incidentId
                timestamp
              }
            }
        ";
     variable_values := Some {[ "severities" := severities_value severities ]};
     on_result := fun result =>
       match getitem result "incidentUpdates" with
       | inl e => inl e
       | inr update =>
           match getitem update "updateType" with
           | inl e => inl e
           | inr updateType =>
               match getitem update "incidentId" with
               | inl e => inl e
               | inr incidentId =>
                   inr (Log INFO "📢 Update: {} - {}"
                          [AVal updateType; AVal incidentId], update)
               end
           end
       end;
     handler := handler;
     error_fmt := "Incident updates subscription error: {}" |}.

Definition subscribe_to_new_incidents
    (severities : list string) (handler : Handler) : coroutine :=
  {| start_line :=
       Log INFO "Subscribing to new incidents (severities: {})..."
         [AVal (severities_value severities)];
     document := "
            subscription NewIncidents($severities: [Severity!]) {
              newIncidents(severities: $severities) {
                id
                title
                description
                severity
                state
                incidentType
                source
                createdAt
                affectedResources
              }
            }
        ";
     variable_values := Some {[ "severities" := severities_value severities ]};
     on_result := fun result =>
       match getitem result "newIncidents" with
       | inl e => inl e
       | inr incident =>
           match getitem incident "id" with
           | inl e => inl e
           | inr id =>
               match getitem incident "title" with
               | inl e => inl e
               | inr title =>
                   inr (Log INFO "🆕 New incident: {} - {}"
                          [AVal id; AVal title], incident)
               end
           end
       end;
     handler := handler;
     error_fmt := "New incidents subscription error: {}" |}.

(** Where a subscription coroutine stands between two resumptions. *)
Inductive phase : Type :=
| Created               (* the coroutine object exists, its body has not run *)
| Entering              (* suspended in [async with self.client]: awaiting __aenter__ *)
| Iterating             (* suspended in [async for]: awaiting the next result *)
| InHandler             (* inside a handler call that never returns *)
| Returned              (* the coroutine returned None *)
| Propagated (e : exn)  (* the coroutine ended by raising e *).

(** What the event loop hands to a suspended coroutine when it resumes it. *)
Inductive resumption : Type :=
| Started                  (* first run of the task *)
| AenterOk                 (* __aenter__ returned the session *)
| AenterRaised (e : exn)   (* __aenter__ raised: the connection was not opened *)
| Yielded (result : value) (* the subscription yielded a result *)
| AnextRaised (e : exn)    (* the subscription raised *)
| Exhausted                (* the subscription ended: StopAsyncIteration *).

Definition terminal (p : phase) : bool :=
  match p with
  | Returned | Propagated _ => true
  | _ => false
  end.

(** [except Exception as e: logger.error(f"...: {e}")]; an exception that is
    not an instance of Exception is not caught. *)
Definition except_Exception (co : coroutine) (e : exn) : phase * list effect :=
  if isinstance_Exception e
  then (Returned, [Log ERROR (error_fmt co) [AExn e]])
  else (Propagated e, []).

(** One iteration of the [async for] body on [result]; [calls] are the
    payloads this handler has been called with so far. *)
Definition loop_body (co : coroutine) (self : IncidentMonitor)
    (calls : list value) (result : value) : phase * list effect :=
  match on_result co result with
  | inl e =>
      let '(p, out) := except_Exception co e in (p, Close :: out)
  | inr (line, payload) =>
      match handler co calls payload with
      | Returns =>
          if negb (running self)
          then (Returned, [line; Call payload; Close])   (* break *)
          else (Iterating, [line; Call payload])
      | Raises e =>
          let '(p, out) := except_Exception co e in
          (p, [line; Call payload; Close] ++ out)
      | NeverReturns => (InHandler, [line; Call payload])
      end
  end.

(** The coroutine runs from its suspension point to the next one (or to its
    end).  A resumption that does not answer the pending await leaves the
    coroutine where it is. *)
Definition resume (co : coroutine) (self : IncidentMonitor)
    (calls : list value) (p : phase) (r : resumption) : phase * list effect :=
  match p, r with
  | Created, Started =>
      (Entering, [start_line co; Connect (client_transport (client self))])
  | Entering, AenterOk =>
      (Iterating, [Subscribe (document co) (variable_values co)])
  | Entering, AenterRaised e => except_Exception co e
  | Iterating, Yielded result => loop_body co self calls result
  | Iterating, AnextRaised e =>
      let '(p', out) := except_Exception co e in (p', Close :: out)
  | Iterating, Exhausted => (Returned, [Close])
  | _, _ => (p, [])
  end.

(** ** main *)

(** The three subscriptions that [main] starts. *)
Inductive sub_id : Type := Critical | Updates | NewIncidents.

Global Instance sub_id_eq_dec : EqDecision sub_id.
Proof. solve_decision. Defined.

(** Who produced an entry of the trace. *)
Inductive actor : Type :=
| Main
| Task (i : sub_id).

Global Instance actor_eq_dec : EqDecision actor.
Proof. solve_decision. Defined.

(** The state of the running program.  [current_token] is the credential
    that is valid outside the program at this moment; the program reads it
    through the AUTH_TOKEN variable when it starts. *)
Record config : Type := {
  current_token : string;
  monitor : IncidentMonitor;
  critical : phase;
  updates : phase;
  new_incidents : phase;
  trace : list (actor * effect)
}.

Definition phase_of (c : config) (i : sub_id) : phase :=
  match i with
  | Critical => critical c
  | Updates => updates c
  | NewIncidents => new_incidents c
  end.

Definition set_phase (i : sub_id) (p : phase) (c : config) : config :=
  match i with
  | Critical =>
      {| current_token := current_token c; monitor := monitor c;
         critical := p; updates := updates c;
         new_incidents := new_incidents c; trace := trace c |}
  | Updates =>
      {| current_token := current_token c; monitor := monitor c;
         critical := critical c; updates := p;
         new_incidents := new_incidents c; trace := trace c |}
  | NewIncidents =>
      {| current_token := current_token c; monitor := monitor c;
         critical := critical c; updates := updates c;
         new_incidents := p; trace := trace c |}
  end.

Definition emit (who : actor) (out : list effect) (c : config) : config :=
  {| current_token := current_token c; monitor := monitor c;
     critical := critical c; updates := updates c;
     new_incidents := new_incidents c;
     trace := trace c ++ ((fun e => (who, e)) <$> out) |}.

Definition set_monitor (m : IncidentMonitor) (c : config) : config :=
  {| current_token := current_token c; monitor := m;
     critical := critical c; updates := updates c;
     new_incidents := new_incidents c; trace := trace c |}.

Definition set_token (t : string) (c : config) : config :=
  {| current_token := t; monitor := monitor c;
     critical := critical c; updates := updates c;
     new_incidents := new_incidents c; trace := trace c |}.

(** The payloads handler [i] has been called with, oldest first. *)
Definition calls_of (i : sub_id) (tr : list (actor * effect)) : list value :=
  omap (fun '(who, e) =>
          match e with
          | Call payload => if decide (who = Task i) then Some payload else None
          | _ => None
          end) tr.

(** All tasks run on the one thread of the event loop: while a handler call
    has not returned, that thread runs nothing else. *)
Definition blocked (c : config) : bool :=
  match critical c, updates c, new_incidents c with
  | InHandler, _, _ | _, InHandler, _ | _, _, InHandler => true
  | _, _, _ => false
  end.

(** [asyncio.gather(..., return_exceptions=True)] is done when the three
    tasks are. *)
Definition gather_done (c : config) : bool :=
  terminal (critical c) && terminal (updates c) && terminal (new_incidents c).

(** The exceptions that do not stay in the task that raised them: the
    event loop re-raises a KeyboardInterrupt or a SystemExit to its caller
    and stops. *)
Definition stops_event_loop (e : exn) : bool :=
  match exn_class e with
  | KeyboardInterrupt | SystemExit => true
  | _ => false
  end.

(** What the gather collects from a task: None when the coroutine
    returned, the exception when it ended by raising one that stays in the
    task.  Nothing is collected from a task that has not ended, nor from
    one whose exception stopped the event loop. *)
Definition task_result (p : phase) : option (option exn) :=
  match p with
  | Returned => Some None
  | Propagated e => if stops_event_loop e then None else Some (Some e)
  | _ => None
  end.

(** The list that [await asyncio.gather(..., return_exceptions=True)] gives
    [main], when it gives one. *)
Definition gather (c : config) : option (list (option exn)) :=
  r1 ← task_result (critical c);
  r2 ← task_result (updates c);
  r3 ← task_result (new_incidents c);
  Some [r1; r2; r3].

(** What the environment does to the running program. *)
Inductive event : Type :=
| Resume (i : sub_id) (r : resumption)
    (* the event loop resumes task i *)
| Signal
    (* SIGINT or SIGTERM is delivered: signal_handler runs *)
| TokenRefreshed (token : string)
    (* outside the program, the credential is replaced *).

Section Main.

(** The handlers [main] passes: handle_critical_incident,
    handle_incident_update and handle_new_incident. *)
Variables handle_critical_incident handle_incident_update
          handle_new_incident : Handler.

(** The coroutine objects built in the call to [asyncio.gather]. *)
Definition task (i : sub_id) : coroutine :=
  match i with
  | Critical => subscribe_to_critical_incidents handle_critical_incident
  | Updates => subscribe_to_incident_updates ["P0"; "P1"] handle_incident_update
  | NewIncidents =>
      subscribe_to_new_incidents ["P0"; "P1"; "P2"] handle_new_incident
  end.

(** [main] up to the [await asyncio.gather(...)]. *)
Definition main (environ : gmap string string) : config :=
  let ws_url := getenv environ "WS_URL" "ws://localhost:8080/graphql/ws" in
  let auth_token := getenv environ "AUTH_TOKEN" "YOUR_JWT_TOKEN" in
  let monitor := IncidentMonitor.__init__ ws_url auth_token in
  let monitor := IncidentMonitor.set_running true monitor in
  {| current_token := auth_token;
     monitor := monitor;
     critical := Created; updates := Created; new_incidents := Created;
     trace := [(Main, Log INFO "Starting incident monitor..." []);
               (Main, Log INFO "Press Ctrl+C to stop" [])] |}.

(** [monitor.stop()] on the monitor of the running program. *)
Definition call_stop (c : config) : config :=
  let '(m, out) := IncidentMonitor.stop (monitor c) in
  emit Main out (set_monitor m c).

(** [signal_handler(sig, frame)] *)
Definition signal_handler (c : config) : config :=
  call_stop (emit Main [Log INFO "Shutdown signal received" []] c).

(** The event loop resumes task [i]; when that makes the gather complete,
    [main] reaches its [finally]. *)
Definition resume_task (i : sub_id) (r : resumption) (c : config) : config :=
  if blocked c then c
  else
    let '(p, out) :=
      resume (task i) (monitor c) (calls_of i (trace c)) (phase_of c i) r in
    let c' := emit (Task i) out (set_phase i p c) in
    if negb (gather_done c) && gather_done c'
    then emit Main [Log INFO "Incident monitor stopped" []] c'
    else c'.

Definition step (c : config) (ev : event) : config :=
  match ev with
  | Resume i r => resume_task i r c
  | Signal => signal_handler c
  | TokenRefreshed t => set_token t c
  end.

Definition run (c : config) (evs : list event) : config :=
  foldl step c evs.

End Main.

(** * The multiplexing engine of the design *)

Module Engine.

(** Modelled from the spec: the connection's lifecycle states (section 4.2).
    The sources hold the example client only; the engine with its
    generation counter, registry and dispatcher is not among them. *)
Inductive conn_state : Type :=
| Idle | Connecting | Handshaking | Ready | Draining | BackoffWait | Closed.

(** Modelled from the spec: a SubscriptionRequest (section 3): document,
    variables and the client-assigned key, which the engine does not have
    in the sources. *)
Record SubscriptionRequest : Type := {
  key : nat;
  req_document : string;
  req_variables : gmap string value
}.

(** Modelled from the spec: an InboundEvent (section 3), a decoded
    data/error/complete frame tagged with the server subscription id it
    targets; absent from the sources. *)
Inductive InboundEvent : Type :=
| Next (id : nat) (payload : value)
| Error (id : nat) (payload : value)
| Complete (id : nat).

(** Modelled from the spec: the server subscription id an InboundEvent
    targets (section 3); absent from the sources. *)
Definition target (ev : InboundEvent) : nat :=
  match ev with
  | Next id _ | Error id _ | Complete id => id
  end.

(** Modelled from the spec: what a Handle's sequence yields (section 6):
    payload, terminal error or complete; absent from the sources. *)
Inductive delivery : Type :=
| Payload (payload : value)
| TerminalError (payload : value)
| Completed.

(** Modelled from the spec: the frames the engine sends (section 6);
    absent from the sources. *)
Inductive frame : Type :=
| ConnectionInit
| SubscribeFrame (key : nat)
| Unsubscribe (id : nat).

(** Modelled from the spec: the engine's state (section 3), which the
    sources do not have.  [generation] is incremented on each successful
    handshake; [registry] holds the requests in insertion order and
    survives reconnects; [active] is the ActiveSubscription map of the
    current generation, client key to server-assigned id; [queues] are the
    delivery queues of the Handles.  [assigned] records which id the server
    assigned in which generation; the engine does not read it. *)
Record engine : Type := {
  state : conn_state;
  generation : nat;
  registry : list SubscriptionRequest;
  active : gmap nat nat;
  queues : gmap nat (list delivery);
  sent : list frame;
  assigned : list (nat * nat)
}.

(** Modelled from the spec: the engine before any subscription is desired,
    Idle with no connection held (section 4.2); absent from the sources. *)
Definition init : engine :=
  {| state := Idle; generation := 0; registry := []; active := ∅;
     queues := ∅; sent := []; assigned := [] |}.

(** Modelled from the spec: what happens to the engine (sections 4.2 to
    4.4); the engine is absent from the sources. *)
Inductive input : Type :=
| Add (req : SubscriptionRequest)   (* Registry.add *)
| Cancel (k : nat)                  (* Registry.cancel *)
| Wanted                            (* Idle: a subscription is desired *)
| Opened                            (* Connecting: the transport opened *)
| OpenFailed                        (* Connecting: it did not *)
| Acked                             (* Handshaking: ConnectionAck arrived *)
| Rejected                          (* Handshaking: timeout or rejection *)
| Subscribed (k id : nat)           (* Ready: the server acknowledged the
                                       subscribe of k and assigned id *)
| Inbound (ev : InboundEvent)       (* Ready: a data/error/complete frame *)
| TransportFailed                   (* Ready: read/write failure or Bye *)
| Drained                           (* Draining is done *)
| BackoffElapsed                    (* BackoffWait: the delay has passed *)
| Shutdown.

(** Modelled from the spec: a transition of the Connection's state
    (section 4.2); absent from the sources. *)
Definition set_state (st : conn_state) (s : engine) : engine :=
  {| state := st; generation := generation s; registry := registry s;
     active := active s; queues := queues s; sent := sent s;
     assigned := assigned s |}.

(** Modelled from the spec: sending outbound frames on the transport
    (section 6); absent from the sources. *)
Definition send (fs : list frame) (s : engine) : engine :=
  {| state := state s; generation := generation s; registry := registry s;
     active := active s; queues := queues s; sent := sent s ++ fs;
     assigned := assigned s |}.

(** Modelled from the spec: pushing onto the delivery queue of one
    subscription (section 4.4); absent from the sources. *)
Definition push (k : nat) (d : delivery) (s : engine) : engine :=
  {| state := state s; generation := generation s; registry := registry s;
     active := active s;
     queues := <[k := default [] (queues s !! k) ++ [d]]> (queues s);
     sent := sent s; assigned := assigned s |}.

(** Modelled from the spec: the ActiveSubscription bookkeeping (section
    3); absent from the sources. *)
Definition set_active (a : gmap nat nat) (s : engine) : engine :=
  {| state := state s; generation := generation s; registry := registry s;
     active := a; queues := queues s; sent := sent s;
     assigned := assigned s |}.

(** Modelled from the spec: the Dispatcher's lookup (section 4.4), absent
    from the sources: resolve the server subscription id to the client key
    through the ActiveSubscription map of the current generation. *)
Definition resolve (s : engine) (id : nat) : option nat :=
  (fun found => found.2.1)
    <$> list_find (fun kv => kv.2 = id) (map_to_list (active s)).

(** Modelled from the spec: the Dispatcher (section 4.4), absent from the
    sources.  An event whose id resolves is pushed on that subscription's
    delivery queue; an Error frame also removes the ActiveSubscription
    entry.  An event whose id does not resolve is not delivered. *)
Definition dispatch (ev : InboundEvent) (s : engine) : engine :=
  match resolve s (target ev) with
  | None => s
  | Some k =>
      match ev with
      | Next _ payload => push k (Payload payload) s
      | Error _ payload =>
          set_active (delete k (active s)) (push k (TerminalError payload) s)
      | Complete _ => push k Completed s
      end
  end.

(** Modelled from the spec: Registry.add (section 4.3), absent from the
    sources. *)
Definition add (req : SubscriptionRequest) (s : engine) : engine :=
  if bool_decide (key req ∈ key <$> registry s) then s
  else
    let s' :=
      {| state := state s; generation := generation s;
         registry := registry s ++ [req]; active := active s;
         queues := <[key req := []]> (queues s); sent := sent s;
         assigned := assigned s |} in
    match state s with
    | Ready => send [SubscribeFrame (key req)] s'
    | _ => s'
    end.

(** Modelled from the spec: Registry.cancel (section 4.3), absent from the
    sources. *)
Definition cancel (k : nat) (s : engine) : engine :=
  let s' :=
    {| state := state s; generation := generation s;
       registry := List.filter (fun req => negb (Nat.eqb (key req) k))
                     (registry s);
       active := active s; queues := queues s; sent := sent s;
       assigned := assigned s |} in
  match active s !! k with
  | Some id =>
      set_active (delete k (active s)) (push k Completed (send [Unsubscribe id] s'))
  | None => s'
  end.

(** Modelled from the spec: the lifecycle state machine (section 4.2),
    absent from the sources.  An input that the current state does not
    expect changes nothing. *)
Definition step (s : engine) (i : input) : engine :=
  match i, state s with
  | Add req, _ => add req s
  | Cancel k, _ => cancel k s
  | Shutdown, _ => set_state Closed (set_active ∅ s)
  | Wanted, Idle => set_state Connecting s
  | Opened, Connecting => set_state Handshaking (send [ConnectionInit] s)
  | OpenFailed, Connecting => set_state BackoffWait s
  | Acked, Handshaking =>
      (* increments generation, replays Subscribe for every entry of the
         Registry in insertion order *)
      {| state := Ready; generation := S (generation s);
         registry := registry s; active := active s; queues := queues s;
         sent := sent s ++ (SubscribeFrame <$> (key <$> registry s));
         assigned := assigned s |}
  | Rejected, Handshaking => set_state BackoffWait s
  | Subscribed k id, Ready =>
      {| state := Ready; generation := generation s; registry := registry s;
         active := <[k := id]> (active s); queues := queues s;
         sent := sent s;
         assigned := assigned s ++ [(generation s, id)] |}
  | Inbound ev, Ready => dispatch ev s
  | TransportFailed, Ready => set_state Draining s
  | Drained, Draining =>
      (* discards all ActiveSubscription entries of the dead generation,
         does not touch the Registry *)
      set_state BackoffWait (set_active ∅ s)
  | BackoffElapsed, BackoffWait => set_state Connecting s
  | _, _ => s
  end.

(** Modelled from the spec: the engine driven by a sequence of inputs;
    absent from the sources. *)
Definition run (s : engine) (ins : list input) : engine := foldl step s ins.

(** Modelled from the spec: a server subscription id from a stale
    generation (invariant I3), for the engine that is absent from the
    sources: the server assigned it in a generation before the current
    one. *)
Definition stale (s : engine) (id : nat) : Prop :=
  ∃ g, g < generation s ∧ (g, id) ∈ assigned s.

(** Modelled from the spec: a server subscription id of the current
    generation (section 3, ActiveSubscription), for the engine that is
    absent from the sources: the server has assigned it since the last
    handshake. *)
Definition current (s : engine) (id : nat) : Prop :=
  (generation s, id) ∈ assigned s.

(** Modelled from the spec: what the lifecycle of section 4.2 maintains of
    the engine that is absent from the sources.  Every ActiveSubscription
    entry holds an id assigned in the current generation, and outside Ready
    and Draining there is no entry. *)
Definition engine_inv (s : engine) : Prop :=
  (∀ k id, active s !! k = Some id → (generation s, id) ∈ assigned s) ∧
  (state s ≠ Ready → state s ≠ Draining → active s = ∅).

End Engine.

(** * Observations and sample data *)

Definition is_log (e : effect) : bool :=
  match e with Log _ _ _ => true | _ => false end.

Definition is_connect (e : effect) : bool :=
  match e with Connect _ => true | _ => false end.

Definition is_subscribe (e : effect) : bool :=
  match e with Subscribe _ _ => true | _ => false end.

Definition by_task (i : sub_id) (x : actor * effect) : bool :=
  bool_decide (x.1 = Task i).

(** Everything task [i] did. *)
Definition actions_of (i : sub_id) (tr : list (actor * effect)) : list effect :=
  snd <$> List.filter (by_task i) tr.

(** The connection requests of a trace: each asks the transport for a
    connection and its handshake, which the transport grants or refuses. *)
Definition connects (tr : list (actor * effect)) : list effect :=
  List.filter is_connect (snd <$> tr).

Definition connects_by (i : sub_id) (tr : list (actor * effect)) : nat :=
  length (List.filter is_connect (actions_of i tr)).

Definition subscribes_by (i : sub_id) (tr : list (actor * effect)) : nat :=
  length (List.filter is_subscribe (actions_of i tr)).

Definition started (p : phase) : bool :=
  match p with Created => false | _ => true end.

(** The results the environment yields to subscription [i] in a schedule. *)
Definition yielded_to (i : sub_id) (evs : list event) : list value :=
  omap (fun ev =>
          match ev with
          | Resume j (Yielded result) =>
              if decide (j = i) then Some result else None
          | _ => None
          end) evs.

(** The payload that coroutine [co] hands to its handler for [result],
    when the result has the fields the coroutine reads. *)
Definition payload_of (co : coroutine) (result : value) : option value :=
  match on_result co result with
  | inr (_, payload) => Some payload
  | inl _ => None
  end.

(** The handler calls among the effects of one resumption. *)
Definition effect_calls (out : list effect) : list value :=
  omap (fun e => match e with Call payload => Some payload | _ => None end) out.

(** An event that does not resume task [i]. *)
Definition not_for (i : sub_id) (ev : event) : Prop :=
  match ev with
  | Resume j _ => j ≠ i
  | _ => True
  end.

Global Instance not_for_dec i ev : Decision (not_for i ev).
Proof. destruct ev; cbn; apply _. Defined.

(** The exception, if any, raised inside the [try] while coroutine [co]
    runs from phase [p] on resumption [r]. *)
Definition raised (co : coroutine) (calls : list value)
    (p : phase) (r : resumption) : option exn :=
  match p, r with
  | Entering, AenterRaised e => Some e
  | Iterating, AnextRaised e => Some e
  | Iterating, Yielded result =>
      match on_result co result with
      | inl e => Some e
      | inr (_, payload) =>
          match handler co calls payload with
          | Raises e => Some e
          | _ => None
          end
      end
  | _, _ => None
  end.

(** A coroutine whose start line and per-result line are log lines. *)
Definition logs_lines (co : coroutine) : Prop :=
  is_log (start_line co) = true ∧
  ∀ result line payload,
    on_result co result = inr (line, payload) → is_log line = true.

(** No event of a schedule stops the monitor or ends subscription [i]. *)
Definition calm (i : sub_id) (ev : event) : Prop :=
  match ev with
  | Signal => False
  | Resume j (AnextRaised _) | Resume j Exhausted => j ≠ i
  | _ => True
  end.

Definition b2n (b : bool) : nat := if b then 1 else 0.

(** The subscriptions whose coroutine has begun to run. *)
Definition n_started (c : config) : nat :=
  b2n (started (critical c)) + b2n (started (updates c))
  + b2n (started (new_incidents c)).

(** What holds of the connection requests in every state of the program. *)
Record connection_inv (t0 : WebsocketsTransport) (c : config) : Prop := {
  inv_transport : transport (monitor c) = t0;
  inv_client : client_transport (client (monitor c)) = t0;
  inv_connects : connects (trace c) = replicate (n_started c) (Connect t0);
  inv_connects_by :
    ∀ i, connects_by i (trace c) = b2n (started (phase_of c i));
  inv_subscribes_by :
    ∀ i, subscribes_by i (trace c) ≤ connects_by i (trace c) ∧
         (phase_of c i = Entering → subscribes_by i (trace c) = 0)
}.

(** The coroutine is inside [async with], iterating. *)
Definition entered (p : phase) : bool :=
  match p with Iterating => true | _ => false end.

(** The failures of the session proper: the connection is refused, or the
    stream of results breaks. *)
Definition session_failure (p : phase) (r : resumption) (e : exn) : Prop :=
  (p = Entering ∧ r = AenterRaised e) ∨ (p = Iterating ∧ r = AnextRaised e).

(** The key under which subscription [i] finds its payload in a result:
    [result['criticalIncidents']], [result['incidentUpdates']],
    [result['newIncidents']]. *)
Definition result_field (i : sub_id) : string :=
  match i with
  | Critical => "criticalIncidents"
  | Updates => "incidentUpdates"
  | NewIncidents => "newIncidents"
  end.

(** The keys of its payload that subscription [i] interpolates in the line
    it logs before the handler call. *)
Definition logged_keys (i : sub_id) : list string :=
  match i with
  | Critical => ["id"]
  | Updates => ["updateType"; "incidentId"]
  | NewIncidents => ["id"; "title"]
  end.

(** A result that holds what subscription [i] reads from it. *)
Definition well_formed (i : sub_id) (result : value) : Prop :=
  ∃ payload,
    getitem result (result_field i) = inr payload ∧
    Forall (fun k => ∃ x, getitem payload k = inr x) (logged_keys i).

(** The subscriptions other than [i], in the order [main] lists them. *)
Definition others (i : sub_id) : list sub_id :=
  List.filter (fun j => negb (bool_decide (j = i)))
              [Critical; Updates; NewIncidents].

Definition returning_handler : Handler := fun _ _ => Returns.

Definition critical_result (id : string) : value :=
  VDict {[ "criticalIncidents" := VDict {[ "id" := VStr id ]} ]}.

Definition critical_payload (id : string) : value :=
  VDict {[ "id" := VStr id ]}.

Definition update_result (updateType incidentId : string) : value :=
  VDict {[ "incidentUpdates" :=
             VDict {[ "updateType" := VStr updateType;
                      "incidentId" := VStr incidentId ]} ]}.




Definition connection_lost : exn := Exn TransportClosed "connection lost".

Definition server_error_frame : exn :=
  Exn TransportQueryError "error frame for this subscription".

Definition task_cancelled : exn := Exn CancelledError "".

Definition already_connected : exn :=
  Exn TransportAlreadyConnected "Transport is already connected".

(** The critical-incidents subscription brought to its [async for]. *)
Definition open_critical : list event :=
  [Resume Critical Started; Resume Critical AenterOk].

(** All three subscriptions brought to their [async for]. *)
Definition open_all : list event :=
  [Resume Critical Started; Resume Updates Started;
   Resume NewIncidents Started;
   Resume Critical AenterOk; Resume Updates AenterOk;
   Resume NewIncidents AenterOk].

(** The three tasks start; the client, which serves one session at a time,
    grants the connection request of subscription [i] and refuses the two
    others, being connected already. *)
Definition granted (i : sub_id) : list event :=
  [Resume Critical Started; Resume Updates Started;
   Resume NewIncidents Started; Resume i AenterOk]
  ++ ((fun j => Resume j (AenterRaised already_connected)) <$> others i).

Definition run_returning : config -> list event -> config :=
  run returning_handler returning_handler returning_handler.

(** The transport grants the first connection request and refuses the
    other two, being connected already. *)
Definition one_granted : config :=
  run_returning (main ∅)
    [Resume Critical Started; Resume Updates Started;
     Resume NewIncidents Started;
     Resume Critical AenterOk;
     Resume Updates (AenterRaised already_connected);
     Resume NewIncidents (AenterRaised already_connected)].

(** Three critical incidents, with a token refresh in between. *)
Definition critical_stream : list event :=
  [Resume Critical (Yielded (critical_result "INC-1"));
   TokenRefreshed "t2";
   Resume Critical (Yielded (critical_result "INC-2"));
   Resume Critical (Yielded (critical_result "INC-3"))].

(** The critical subscription holds the session; the connection is lost
    after one incident; the environment then offers a new session and a new
    incident. *)
Definition lossy_schedule : list event :=
  granted Critical ++
  [Resume Critical (Yielded (critical_result "INC-1"));
   Resume Critical (AnextRaised connection_lost);
   Resume Critical Started; Resume Critical AenterOk;
   Resume Critical (Yielded (critical_result "INC-2"))].

(** The critical subscription holds the session and its stream raises
    [e]. *)
Definition after_failure (e : exn) : config :=
  run_returning (main ∅)
    (granted Critical ++ [Resume Critical (AnextRaised e)]).

(** The program starts with token t1; the credential is replaced by t2;
    the critical subscription then asks for its connection. *)
Definition refreshed : config :=
  run_returning (main {[ "AUTH_TOKEN" := "t1" ]})
    [TokenRefreshed "t2"; Resume Critical Started].

Definition critical_open : config := run_returning (main ∅) open_critical.

(** One subscription acknowledged with id 7 in the first generation and
    with id 8 after a reconnection. *)
Definition reconnected : list Engine.input :=
  [Engine.Add {| Engine.key := 1; Engine.req_document := "subscription";
                 Engine.req_variables := ∅ |};
   Engine.Wanted; Engine.Opened; Engine.Acked; Engine.Subscribed 1 7;
   Engine.TransportFailed; Engine.Drained; Engine.BackoffElapsed;
   Engine.Opened; Engine.Acked; Engine.Subscribed 1 8].

(** Two subscriptions; the server gives id 7 to the first in the first
    generation and, after a reconnection, gives id 7 to the second. *)
Definition reassigned : list Engine.input :=
  [Engine.Add {| Engine.key := 1; Engine.req_document := "subscription";
                 Engine.req_variables := ∅ |};
   Engine.Add {| Engine.key := 2; Engine.req_document := "subscription";
                 Engine.req_variables := ∅ |};
   Engine.Wanted; Engine.Opened; Engine.Acked; Engine.Subscribed 1 7;
   Engine.TransportFailed; Engine.Drained; Engine.BackoffElapsed;
   Engine.Opened; Engine.Acked; Engine.Subscribed 2 7].




(** * The notification handlers *)

(** [s * n] on a string. *)
Fixpoint str_mul (s : string) (n : nat) : string :=
  match n with
  | 0 => ""
  | S n => s +:+ str_mul s n
  end.

(** An interpolated argument of a printed line: a string the handler
    computed, a value of the payload, or [sep.join(v)]. *)
Inductive parg : Type :=
| PStr (s : string)
| PVal (v : value)
| PJoin (sep : string) (v : value).

(** [print(f"...")]: the text with {} for each interpolated expression, and
    what is interpolated. *)
Inductive printed : Type :=
| Print (fmt : string) (args : list parg).

Definition type_name (v : value) : string :=
  match v with
  | VNone => "NoneType"
  | VStr _ => "str"
  | VList _ => "list"
  | VDict _ => "dict"
  end.

Definition is_str (v : value) : bool :=
  match v with VStr _ => true | _ => false end.

(** The exception that [sep.join(v)] raises, if any: [v] must be iterable
    and its items strings.  Iterating a string gives strings, iterating a
    dict gives its keys. *)
Definition join_error (v : value) : option exn :=
  match v with
  | VNone => Some (Exn TypeError "can only join an iterable")
  | VStr _ | VDict _ => None
  | VList l =>
      (fun found =>
         Exn TypeError ("sequence item " +:+ pretty (found.1 : nat)
                        +:+ ": expected str instance, "
                        +:+ type_name found.2 +:+ " found"))
        <$> list_find (fun x => is_str x = false) l
  end.

(** A sequence of print statements, each of which either raises while its
    f-string is evaluated or prints its line: the lines printed, and the
    exception that ended the sequence, if any. *)
Fixpoint run_prints (stmts : list (exn + printed))
    : list printed * option exn :=
  match stmts with
  | [] => ([], None)
  | inl e :: _ => ([], Some e)
  | inr line :: rest =>
      let '(out, r) := run_prints rest in (line :: out, r)
  end.

(** [print(f"<fmt>{v[k]}")] *)
Definition print_field (fmt : string) (v : value) (k : string)
    : exn + printed :=
  match getitem v k with
  | inl e => inl e
  | inr x => inr (Print fmt [PVal x])
  end.

(** [handle_critical_incident(incident)] *)
Definition handle_critical_incident (incident : value)
    : list printed * option exn :=
  run_prints
    [inr (Print "
{}" [PStr (str_mul "=" 60)]);
     inr (Print "🚨 CRITICAL INCIDENT ALERT" []);
     inr (Print "{}" [PStr (str_mul "=" 60)]);
     print_field "ID:          {}" incident "id";
     print_field "Title:       {}" incident "title";
     print_field "Severity:    {}" incident "severity";
     print_field "State:       {}" incident "state";
     print_field "Created:     {}" incident "createdAt";
     match getitem incident "affectedResources" with
     | inl e => inl e
     | inr resources =>
         match join_error resources with
         | Some e => inl e
         | None => inr (Print "Affected:    {}" [PJoin ", " resources])
         end
     end;
     inr (Print "{}
" [PStr (str_mul "=" 60)])].

(** [handle_incident_update(update)] *)
Definition handle_incident_update (update : value)
    : list printed * option exn :=
  run_prints
    [match getitem update "updateType" with
     | inl e => inl e
     | inr updateType =>
         match getitem update "incidentId" with
         | inl e => inl e
         | inr incidentId =>
             match getitem update "timestamp" with
             | inl e => inl e
             | inr timestamp =>
                 inr (Print "📢 {}: {} at {}"
                        [PVal updateType; PVal incidentId; PVal timestamp])
             end
         end
     end].

(** [handle_new_incident(incident)] *)
Definition handle_new_incident (incident : value)
    : list printed * option exn :=
  run_prints
    [match getitem incident "severity" with
     | inl e => inl e
     | inr severity =>
         match getitem incident "title" with
         | inl e => inl e
         | inr title =>
             inr (Print "🆕 New {} incident: {}" [PVal severity; PVal title])
         end
     end].

(** A notification function seen as the [handler] argument of a
    subscription: it returns None or raises. *)
Definition handler_of (f : value -> list printed * option exn) : Handler :=
  fun _ payload =>
    match (f payload).2 with
    | None => Returns
    | Some e => Raises e
    end.

(** The program as [main] runs it, with its three notification handlers. *)
Definition program (c : config) (evs : list event) : config :=
  run (handler_of handle_critical_incident)
      (handler_of handle_incident_update)
      (handler_of handle_new_incident) c evs.

Definition program_task (i : sub_id) : coroutine :=
  task (handler_of handle_critical_incident)
       (handler_of handle_incident_update)
       (handler_of handle_new_incident) i.

(** * Further observations *)

Definition is_close (e : effect) : bool :=
  match e with Close => true | _ => false end.

Definition closes_by (i : sub_id) (tr : list (actor * effect)) : nat :=
  length (List.filter is_close (actions_of i tr)).

Definition is_error_line (e : effect) : bool :=
  match e with Log ERROR _ _ => true | _ => false end.

(** The line [main] logs in its [finally]. *)
Definition is_stopped_line (x : actor * effect) : bool :=
  match x with
  | (Main, Log INFO "Incident monitor stopped" []) => true
  | _ => false
  end.

Definition is_signal (ev : event) : bool :=
  match ev with Signal => true | _ => false end.

(** The keys of a payload that the critical handler prints. *)
Definition critical_keys : list string :=
  ["id"; "title"; "severity"; "state"; "createdAt"; "affectedResources"].

(** The notification function that [main] attaches to subscription [i]. *)
Definition notify (i : sub_id) : value -> list printed * option exn :=
  match i with
  | Critical => handle_critical_incident
  | Updates => handle_incident_update
  | NewIncidents => handle_new_incident
  end.

(** How many subscribes [s] and closes [c] a coroutine in phase [p] can
    have made: none before it iterates, one subscribe and no close while it
    iterates, and as many closes as subscribes once it has ended. *)
Definition session_ok (p : phase) (s c : nat) : Prop :=
  match p with
  | Created | Entering => s = 0 ∧ c = 0
  | Iterating | InHandler => s = 1 ∧ c = 0
  | Returned | Propagated _ => c = s ∧ s ≤ 1
  end.

(** The exceptions that the session of subscription [i] raises in a
    schedule. *)
Definition session_raises (i : sub_id) (evs : list event) : list exn :=
  omap (fun ev =>
          match ev with
          | Resume j (AenterRaised e) | Resume j (AnextRaised e) =>
              if decide (j = i) then Some e else None
          | _ => None
          end) evs.

Definition is_info_line (e : effect) : bool :=
  match e with Log INFO _ _ => true | _ => false end.

(** The error lines among what a task did. *)
Definition error_lines (acts : list effect) : list effect :=
  List.filter is_error_line acts.

(** A coroutine whose start line and per-result line are logged at INFO. *)
Definition info_lines (co : coroutine) : Prop :=
  is_info_line (start_line co) = true ∧
  ∀ result line payload,
    on_result co result = inr (line, payload) → is_info_line line = true.

(** What a task in phase [p] that logs its errors as [fmt] can have done:
    either no error line, or it has returned and its one error line is the
    last thing it did. *)
Definition errors_ok (fmt : string) (p : phase) (acts : list effect) : Prop :=
  error_lines acts = [] ∨
  (p = Returned ∧
   ∃ pre e, acts = pre ++ [Log ERROR fmt [AExn e]] ∧ error_lines pre = []).

(** * Properties *)

(** ** Observations on a trace *)

Lemma calls_of_app i tr1 tr2 :
  calls_of i (tr1 ++ tr2) = calls_of i tr1 ++ calls_of i tr2.
Proof. unfold calls_of. apply omap_app. Qed.

Lemma calls_of_other i j (out : list effect) :
  j ≠ i → calls_of i ((fun e => (Task j, e)) <$> out) = [].
Proof.
  intros Hne. induction out as [|e out IH]; [done|].
  cbn. destruct e; cbn; try exact IH.
  destruct (decide (Task j = Task i)) as [H|H]; [congruence|exact IH].
Qed.

Lemma calls_of_main i (out : list effect) :
  calls_of i ((fun e => (Main, e)) <$> out) = [].
Proof.
  induction out as [|e out IH]; [done|].
  cbn. destruct e; cbn; exact IH.
Qed.

Lemma actions_of_app i tr1 tr2 :
  actions_of i (tr1 ++ tr2) = actions_of i tr1 ++ actions_of i tr2.
Proof. unfold actions_of. by rewrite List.filter_app, fmap_app. Qed.

Lemma actions_of_self i (out : list effect) :
  actions_of i ((fun e => (Task i, e)) <$> out) = out.
Proof.
  unfold actions_of. induction out as [|e out IH]; [done|].
  cbn. unfold by_task at 1. cbn.
  rewrite bool_decide_eq_true_2 by done. cbn. by f_equal.
Qed.

Lemma actions_of_other i j (out : list effect) :
  j ≠ i → actions_of i ((fun e => (Task j, e)) <$> out) = [].
Proof.
  intros Hne. unfold actions_of. induction out as [|e out IH]; [done|].
  cbn. unfold by_task at 1. cbn.
  rewrite bool_decide_eq_false_2 by congruence. exact IH.
Qed.

Lemma actions_of_main i (out : list effect) :
  actions_of i ((fun e => (Main, e)) <$> out) = [].
Proof.
  unfold actions_of. induction out as [|e out IH]; [done|].
  cbn. unfold by_task at 1. cbn.
  rewrite bool_decide_eq_false_2 by congruence. exact IH.
Qed.

Lemma calls_of_self i (out : list effect) :
  calls_of i ((fun e => (Task i, e)) <$> out) = effect_calls out.
Proof.
  induction out as [|e out IH]; [done|].
  cbn. destruct e; cbn; try exact IH.
  rewrite decide_True by done. by f_equal.
Qed.

Lemma actions_of_main2 i (a b : effect) :
  actions_of i [(Main, a); (Main, b)] = [].
Proof. apply (actions_of_main i [a; b]). Qed.

(** ** The coroutine skeleton *)

Lemma except_Exception_calls co e :
  effect_calls (except_Exception co e).2 = [].
Proof. unfold except_Exception. by destruct (isinstance_Exception e). Qed.

Lemma subscribe_to_critical_incidents_logs h :
  logs_lines (subscribe_to_critical_incidents h).
Proof.
  split; [done|]. intros result line payload. cbn.
  repeat (match goal with
          | |- context [getitem ?a ?b] => destruct (getitem a b)
          end; try discriminate).
  by intros [= <- <-].
Qed.

Lemma subscribe_to_incident_updates_logs sev h :
  logs_lines (subscribe_to_incident_updates sev h).
Proof.
  split; [done|]. intros result line payload. cbn.
  repeat (match goal with
          | |- context [getitem ?a ?b] => destruct (getitem a b)
          end; try discriminate).
  by intros [= <- <-].
Qed.

Lemma subscribe_to_new_incidents_logs sev h :
  logs_lines (subscribe_to_new_incidents sev h).
Proof.
  split; [done|]. intros result line payload. cbn.
  repeat (match goal with
          | |- context [getitem ?a ?b] => destruct (getitem a b)
          end; try discriminate).
  by intros [= <- <-].
Qed.

(** The handler is called exactly when a result with the expected fields
    is yielded to a coroutine suspended in its [async for], and it is called
    with that result's payload. *)
Lemma resume_calls co self calls p r :
  logs_lines co →
  effect_calls (resume co self calls p r).2 =
    match p, r with
    | Iterating, Yielded result =>
        match payload_of co result with
        | Some payload => [payload]
        | None => []
        end
    | _, _ => []
    end.
Proof.
  intros [Hstart Hco].
  destruct p, r; try done; cbn.
  - (* Created, Started *) by destruct (start_line co).
  - by rewrite except_Exception_calls.
  - (* Iterating, Yielded *)
    unfold loop_body, payload_of.
    destruct (on_result co result) as [e|[line payload]] eqn:Hres.
    + destruct (except_Exception co e) as [p' out'] eqn:He. cbn.
      pose proof (except_Exception_calls co e) as H. by rewrite He in H.
    + specialize (Hco _ _ _ Hres). destruct line; try discriminate.
      destruct (handler co calls payload) as [|e|]; cbn.
      * by destruct (running self).
      * destruct (except_Exception co e) as [p' out'] eqn:He. cbn.
        pose proof (except_Exception_calls co e) as H. rewrite He in H.
        cbn in H. unfold effect_calls in H. by rewrite H.
      * done.
  - destruct (except_Exception co e) as [p' out'] eqn:He. cbn.
    pose proof (except_Exception_calls co e) as H. by rewrite He in H.
Qed.

Lemma resume_terminal co self calls p r :
  terminal p = true → resume co self calls p r = (p, []).
Proof. by destruct p, r. Qed.

Lemma resume_in_handler co self calls r :
  resume co self calls InHandler r = (InHandler, []).
Proof. by destruct r. Qed.

(** The only exit of [resume] that is not a return goes through an
    exception that [except Exception] does not catch. *)
Lemma except_Exception_caught co e :
  isinstance_Exception e = true →
  except_Exception co e = (Returned, [Log ERROR (error_fmt co) [AExn e]]).
Proof. unfold except_Exception. by intros ->. Qed.


Section Runs.

Variables handle_critical_incident handle_incident_update
          handle_new_incident : Handler.

Local Abbreviation task := (task handle_critical_incident handle_incident_update
                             handle_new_incident).
Local Abbreviation resume_task :=
  (resume_task handle_critical_incident handle_incident_update
               handle_new_incident).
Local Abbreviation step := (step handle_critical_incident handle_incident_update
                             handle_new_incident).
Local Abbreviation run := (run handle_critical_incident handle_incident_update
                           handle_new_incident).

Lemma phase_of_set_phase i j p c :
  phase_of (set_phase i p c) j = if decide (i = j) then p else phase_of c j.
Proof. by destruct i, j. Qed.

Lemma run_app c evs1 evs2 : run (run c evs1) evs2 = run c (evs1 ++ evs2).
Proof. unfold run. by rewrite foldl_app. Qed.

Lemma run_cons c ev evs : run c (ev :: evs) = run (step c ev) evs.
Proof. done. Qed.

(** What one resumption of task [i] changes. *)
Lemma resume_task_unblocked i r c :
  blocked c = false →
  ∃ p out fin,
    resume (task i) (monitor c) (calls_of i (trace c)) (phase_of c i) r
      = (p, out) ∧
    (fin = [] ∨ fin = [(Main, Log INFO "Incident monitor stopped" [])]) ∧
    (∀ j, phase_of (resume_task i r c) j
          = if decide (i = j) then p else phase_of c j) ∧
    monitor (resume_task i r c) = monitor c ∧
    current_token (resume_task i r c) = current_token c ∧
    trace (resume_task i r c)
      = trace c ++ ((fun e => (Task i, e)) <$> out) ++ fin.
Proof.
  intros Hb. unfold resume_task. rewrite Hb.
  destruct (resume _ _ _ _ _) as [p out] eqn:Hres.
  exists p, out.
  destruct (negb (gather_done c) && gather_done _).
  - exists [(Main, Log INFO "Incident monitor stopped" [])].
    split; [done|]. split; [by right|].
    split; [intros j; by destruct i, j|].
    split; [by destruct i|]. split; [by destruct i|].
    destruct i; cbn; by rewrite <- (assoc_L (++)).
  - exists []. split; [done|]. split; [by left|].
    split; [intros j; by destruct i, j|].
    split; [by destruct i|]. split; [by destruct i|].
    destruct i; cbn; by rewrite app_nil_r.
Qed.

Lemma resume_task_blocked i r c :
  blocked c = true → resume_task i r c = c.
Proof. intros Hb. unfold resume_task. by rewrite Hb. Qed.

Lemma signal_handler_spec c :
  monitor (signal_handler c) = IncidentMonitor.set_running false (monitor c) ∧
  current_token (signal_handler c) = current_token c ∧
  (∀ j, phase_of (signal_handler c) j = phase_of c j) ∧
  trace (signal_handler c)
    = trace c ++ [(Main, Log INFO "Shutdown signal received" []);
                  (Main, Log INFO "Stopping incident monitor..." [])].
Proof.
  split; [done|]. split; [done|]. split; [intros j; by destruct j|].
  cbn. by rewrite <- (assoc_L (++)).
Qed.

(** Events that do not resume task [i] leave it where it is and add
    nothing to what it did. *)
Lemma step_not_for i c ev :
  not_for i ev →
  phase_of (step c ev) i = phase_of c i ∧
  actions_of i (trace (step c ev)) = actions_of i (trace c) ∧
  calls_of i (trace (step c ev)) = calls_of i (trace c).
Proof.
  destruct ev as [j r| |t]; intros Hne.
  - change (step c (Resume j r)) with (resume_task j r c).
    cbn in Hne. destruct (blocked c) eqn:Hb.
    + by rewrite resume_task_blocked.
    + destruct (resume_task_unblocked j r c Hb)
        as (p & out & fin & _ & Hfin & Hph & _ & _ & Htr).
      rewrite Hph, Htr. rewrite decide_False by done.
      rewrite !actions_of_app, !calls_of_app.
      rewrite actions_of_other, calls_of_other by done.
      destruct Hfin as [-> | ->]; cbn; by rewrite !app_nil_r.
  - change (step c Signal) with (signal_handler c).
    destruct (signal_handler_spec c) as (_ & _ & Hph & Htr).
    rewrite Hph, Htr, actions_of_app, calls_of_app. cbn.
    by rewrite !app_nil_r.
  - by destruct i.
Qed.


(** Once the event loop's thread is inside a handler that does not return,
    no step changes any task or calls any handler. *)
Lemma blocked_step c ev :
  blocked c = true →
  blocked (step c ev) = true ∧
  ∀ j, phase_of (step c ev) j = phase_of c j ∧
       actions_of j (trace (step c ev)) = actions_of j (trace c) ∧
       calls_of j (trace (step c ev)) = calls_of j (trace c).
Proof.
  intros Hb. destruct ev as [i r| |t].
  - change (step c (Resume i r)) with (resume_task i r c).
    by rewrite resume_task_blocked.
  - split; [done|]. intros j.
    apply (step_not_for j c Signal). done.
  - split; [done|]. intros j. by destruct j.
Qed.

Lemma blocked_run c evs :
  blocked c = true →
  blocked (run c evs) = true ∧
  ∀ j, phase_of (run c evs) j = phase_of c j ∧
       actions_of j (trace (run c evs)) = actions_of j (trace c) ∧
       calls_of j (trace (run c evs)) = calls_of j (trace c).
Proof.
  revert c. induction evs as [|ev evs IH]; intros c Hb; [done|].
  rewrite run_cons.
  destruct (blocked_step c ev Hb) as [Hb' Hj].
  destruct (IH _ Hb') as [Hb'' Hj']. split; [done|].
  intros j. destruct (Hj j) as (<- & <- & <-). apply Hj'.
Qed.

(** A task that has ended stays ended and does nothing more. *)
Lemma terminal_step i c ev :
  terminal (phase_of c i) = true →
  phase_of (step c ev) i = phase_of c i ∧
  actions_of i (trace (step c ev)) = actions_of i (trace c) ∧
  calls_of i (trace (step c ev)) = calls_of i (trace c).
Proof.
  intros Ht. destruct ev as [j r| |t]; try (by apply step_not_for).
  destruct (decide (j = i)) as [->|Hne]; [|by apply step_not_for].
  change (step c (Resume i r)) with (resume_task i r c).
  destruct (blocked c) eqn:Hb; [by rewrite resume_task_blocked|].
  destruct (resume_task_unblocked i r c Hb)
    as (p & out & fin & Hres & Hfin & Hph & _ & _ & Htr).
  rewrite resume_terminal in Hres by done.
  injection Hres as <- <-.
  rewrite Hph, Htr, decide_True by done.
  rewrite !actions_of_app, !calls_of_app. cbn.
  destruct Hfin as [-> | ->]; cbn; by rewrite !app_nil_r.
Qed.

Lemma terminal_run i c evs :
  terminal (phase_of c i) = true →
  phase_of (run c evs) i = phase_of c i ∧
  actions_of i (trace (run c evs)) = actions_of i (trace c) ∧
  calls_of i (trace (run c evs)) = calls_of i (trace c).
Proof.
  revert c. induction evs as [|ev evs IH]; intros c Ht; [done|].
  rewrite run_cons.
  destruct (terminal_step i c ev Ht) as (Hp & Ha & Hc).
  destruct (IH (step c ev)) as (-> & -> & ->); [by rewrite Hp|done].
Qed.

Lemma task_logs_lines i : logs_lines (task i).
Proof.
  destruct i; [apply subscribe_to_critical_incidents_logs
              |apply subscribe_to_incident_updates_logs
              |apply subscribe_to_new_incidents_logs].
Qed.

(** The calls that one resumption of task [i] adds to handler [i]. *)
Lemma resume_task_calls i r c :
  blocked c = false →
  calls_of i (trace (resume_task i r c)) =
    calls_of i (trace c) ++
    match phase_of c i, r with
    | Iterating, Yielded result =>
        match payload_of (task i) result with
        | Some payload => [payload]
        | None => []
        end
    | _, _ => []
    end.
Proof.
  intros Hb.
  destruct (resume_task_unblocked i r c Hb)
    as (p & out & fin & Hres & Hfin & _ & _ & _ & Htr).
  rewrite Htr, !calls_of_app, calls_of_self.
  assert (Hfin' : calls_of i fin = []) by (by destruct Hfin as [-> | ->]).
  rewrite Hfin', app_nil_r. f_equal.
  rewrite <- (resume_calls (task i) (monitor c) (calls_of i (trace c)))
    by apply task_logs_lines.
  by rewrite Hres.
Qed.

Lemma resume_task_phase i r c :
  blocked c = false →
  phase_of (resume_task i r c) i =
    (resume (task i) (monitor c) (calls_of i (trace c)) (phase_of c i) r).1.
Proof.
  intros Hb.
  destruct (resume_task_unblocked i r c Hb)
    as (p & out & fin & Hres & _ & Hph & _).
  rewrite Hph, Hres. by rewrite decide_True.
Qed.

Lemma blocked_false c :
  blocked c = false ↔ ∀ j, phase_of c j ≠ InHandler.
Proof.
  split.
  - intros Hb j. unfold blocked in Hb.
    destruct j; cbn; intros E; rewrite E in Hb;
      by destruct (critical c), (updates c), (new_incidents c).
  - intros H. pose proof (H Critical) as H1. pose proof (H Updates) as H2.
    pose proof (H NewIncidents) as H3. cbn in *. unfold blocked.
    by destruct (critical c), (updates c), (new_incidents c).
Qed.

Lemma blocked_true_in_handler c i :
  phase_of c i = InHandler → blocked c = true.
Proof.
  intros H. destruct (blocked c) eqn:Hb; [done|].
  by apply blocked_false in H.
Qed.

End Runs.

(** ** Stopping *)

Section Stopping.

Variables handle_critical_incident handle_incident_update
          handle_new_incident : Handler.

Local Abbreviation task := (task handle_critical_incident
                              handle_incident_update handle_new_incident).
Local Abbreviation step := (step handle_critical_incident
                              handle_incident_update handle_new_incident).
Local Abbreviation run := (run handle_critical_incident
                             handle_incident_update handle_new_incident).





End Stopping.

(** ** Delivery order *)

Lemma resume_no_stall co self calls p r :
  (∀ cs payload, handler co cs payload ≠ NeverReturns) →
  p ≠ InHandler →
  (resume co self calls p r).1 ≠ InHandler.
Proof.
  intros Hns Hp. destruct p, r; try done; cbn;
    try (unfold except_Exception;
         by destruct (isinstance_Exception _)).
  - unfold loop_body.
    destruct (on_result co result) as [e|[line payload]].
    + unfold except_Exception. by destruct (isinstance_Exception e).
    + specialize (Hns calls payload).
      destruct (handler co calls payload) as [|e|]; [| |done].
      * by destruct (running self).
      * unfold except_Exception. by destruct (isinstance_Exception e).
Qed.

Lemma resume_iterating_next co self calls r :
  let p := (resume co self calls Iterating r).1 in
  p = Iterating ∨ p = InHandler ∨ terminal p = true.
Proof.
  destruct r; cbn; auto.
  - unfold loop_body.
    destruct (on_result co result) as [e|[line payload]].
    + unfold except_Exception. destruct (isinstance_Exception e); cbn; auto.
    + destruct (handler co calls payload) as [|e|]; cbn; auto.
      * destruct (running self); cbn; auto.
      * unfold except_Exception. destruct (isinstance_Exception e); cbn; auto.
  - unfold except_Exception. destruct (isinstance_Exception e); cbn; auto.
Qed.

Lemma resume_iterating_yield_none co self calls result :
  payload_of co result = None →
  (resume co self calls Iterating (Yielded result)).1 ≠ Iterating.
Proof.
  unfold payload_of. cbn. unfold loop_body.
  destruct (on_result co result) as [e|[line payload]]; [|done].
  intros _. unfold except_Exception. by destruct (isinstance_Exception e).
Qed.

Section Ordering.

Variables handle_critical_incident handle_incident_update
          handle_new_incident : Handler.

Local Abbreviation task := (task handle_critical_incident
                              handle_incident_update handle_new_incident).
Local Abbreviation resume_task :=
  (resume_task handle_critical_incident handle_incident_update
               handle_new_incident).
Local Abbreviation step := (step handle_critical_incident
                              handle_incident_update handle_new_incident).
Local Abbreviation run := (run handle_critical_incident
                             handle_incident_update handle_new_incident).

(** A task that is inside a handler, or has ended, or whose event loop is
    held by another handler, receives no further call. *)
Lemma quiet_run i c evs :
  phase_of c i = InHandler ∨ terminal (phase_of c i) = true ∨
  blocked c = true →
  calls_of i (trace (run c evs)) = calls_of i (trace c).
Proof.
  intros [H|[H|H]].
  - apply (blocked_true_in_handler c i) in H.
    destruct (blocked_run handle_critical_incident handle_incident_update
                handle_new_incident c evs H) as [_ Hj].
    by destruct (Hj i) as (_ & _ & ->).
  - by destruct (terminal_run handle_critical_incident handle_incident_update
                   handle_new_incident i c evs H) as (_ & _ & ->).
  - destruct (blocked_run handle_critical_incident handle_incident_update
                handle_new_incident c evs H) as [_ Hj].
    by destruct (Hj i) as (_ & _ & ->).
Qed.

Lemma yielded_to_cons_other i ev evs :
  (∀ result, ev ≠ Resume i (Yielded result)) →
  yielded_to i (ev :: evs) = yielded_to i evs.
Proof.
  intros H. destruct ev as [j r| |t]; try done.
  destruct r; try done. cbn.
  destruct (decide (j = i)) as [->|]; [|done]. by destruct (H result).
Qed.

Lemma yielded_to_cons_self i result evs :
  yielded_to i (Resume i (Yielded result) :: evs)
    = result :: yielded_to i evs.
Proof. cbn. by rewrite decide_True. Qed.

(** The calls made during a schedule are the payloads of a prefix of the
    results yielded to the subscription, in the order they were yielded. *)
Lemma order_prefix i evs c :
  phase_of c i = Iterating →
  ∃ ds n,
    calls_of i (trace (run c evs)) = calls_of i (trace c) ++ ds ∧
    Some <$> ds = payload_of (task i) <$> take n (yielded_to i evs).
Proof.
  revert c. induction evs as [|ev evs IH]; intros c Hph.
  { exists [], 0. by rewrite app_nil_r. }
  destruct (blocked c) eqn:Hb.
  { exists [], 0. rewrite quiet_run by auto. by rewrite app_nil_r. }
  rewrite run_cons.
  destruct (decide (not_for i ev)) as [Hnf|Hnf].
  { destruct (step_not_for handle_critical_incident handle_incident_update
                handle_new_incident i c ev Hnf) as (Hp & _ & Hc).
    destruct (IH (step c ev)) as (ds & n & Hds & Hn); [by rewrite Hp|].
    exists ds, n. rewrite Hds, Hc. split; [done|].
    rewrite yielded_to_cons_other; [done|].
    intros result ->. by apply Hnf. }
  destruct ev as [j r| |t]; [|by destruct Hnf|by destruct Hnf].
  assert (j = i) as -> by (destruct (decide (j = i)); [done|by destruct Hnf]).
  clear Hnf.
  change (step c (Resume i r)) with (resume_task i r c).
  pose proof (resume_task_calls handle_critical_incident
                handle_incident_update handle_new_incident i r c Hb) as Hcalls.
  pose proof (resume_task_phase handle_critical_incident
                handle_incident_update handle_new_incident i r c Hb) as Hphase.
  rewrite Hph in Hcalls, Hphase.
  pose proof (resume_iterating_next (task i) (monitor c)
                (calls_of i (trace c)) r) as Hnext.
  cbn zeta in Hnext. rewrite <- Hphase in Hnext.
  destruct Hnext as [Hit|Hquiet].
  - (* the loop goes on *)
    destruct (IH _ Hit) as (ds & n & Hds & Hn).
    rewrite Hds, Hcalls.
    destruct r as [| | |result| |];
      try (exists ds, n; rewrite app_nil_r; split; [done|];
           by rewrite yielded_to_cons_other).
    destruct (payload_of (task i) result) as [payload|] eqn:Hpay.
    + exists (payload :: ds), (S n).
      rewrite <- (assoc_L (++)). split; [done|].
      rewrite yielded_to_cons_self. cbn. by rewrite Hpay, Hn.
    + exfalso. rewrite Hit in Hphase. symmetry in Hphase.
      by apply resume_iterating_yield_none in Hphase.
  - (* the loop is over, or stuck in the handler *)
    rewrite quiet_run by tauto. rewrite Hcalls.
    destruct r as [| | |result| |]; try (by exists [], 0).
    destruct (payload_of (task i) result) as [payload|] eqn:Hpay.
    + exists [payload], 1. split; [done|].
      rewrite yielded_to_cons_self. cbn. by rewrite Hpay, take_0.
    + by exists [], 0.
Qed.

(** When nothing stops the monitor, no handler stalls, handler [i] returns
    and the results have the fields the coroutine reads, every result is
    delivered. *)
Lemma order_complete i evs c :
  phase_of c i = Iterating →
  blocked c = false →
  running (monitor c) = true →
  (∀ j cs payload, handler (task j) cs payload ≠ NeverReturns) →
  (∀ cs payload, handler (task i) cs payload = Returns) →
  Forall (fun result => is_Some (payload_of (task i) result))
         (yielded_to i evs) →
  Forall (calm i) evs →
  ∃ ds,
    calls_of i (trace (run c evs)) = calls_of i (trace c) ++ ds ∧
    Some <$> ds = payload_of (task i) <$> yielded_to i evs.
Proof.
  intros Hph Hb Hrun Hns Hret. revert c Hph Hb Hrun.
  induction evs as [|ev evs IH]; intros c Hph Hb Hrun Hwf Hcalm.
  { exists []. by rewrite app_nil_r. }
  apply Forall_cons in Hcalm as [Hev Hcalm].
  rewrite run_cons.
  destruct ev as [j r| |t]; [|done|].
  - change (step c (Resume j r)) with (resume_task j r c).
    destruct (resume_task_unblocked handle_critical_incident
                handle_incident_update handle_new_incident j r c Hb)
      as (p & out & fin & Hres & _ & Hp & Hmon & _ & _).
    assert (Hb' : blocked (resume_task j r c) = false).
    { apply blocked_false. intros k. rewrite Hp.
      destruct (decide (j = k)) as [->|Hne].
      - replace p with
          (resume (task k) (monitor c) (calls_of k (trace c))
                  (phase_of c k) r).1 by (by rewrite Hres).
        apply resume_no_stall; [apply Hns|]. by apply blocked_false.
      - by apply blocked_false. }
    destruct (decide (j = i)) as [->|Hne].
    + pose proof (resume_task_calls handle_critical_incident
                    handle_incident_update handle_new_incident i r c Hb)
        as Hcalls.
      rewrite Hph in Hcalls, Hres.
      destruct r as [| | |result| |]; cbn in Hev; try done.
      * (* Started: not awaited here *)
        cbn in Hres. injection Hres as <- <-.
        destruct (IH (resume_task i Started c)) as (ds & Hds & Hn);
          try done; [by rewrite Hp, decide_True|by rewrite Hmon|].
        exists ds. by rewrite Hds, Hcalls, app_nil_r.
      * cbn in Hres. injection Hres as <- <-.
        destruct (IH (resume_task i AenterOk c)) as (ds & Hds & Hn);
          try done; [by rewrite Hp, decide_True|by rewrite Hmon|].
        exists ds. by rewrite Hds, Hcalls, app_nil_r.
      * cbn in Hres. injection Hres as <- <-.
        destruct (IH (resume_task i (AenterRaised e) c)) as (ds & Hds & Hn);
          try done; [by rewrite Hp, decide_True|by rewrite Hmon|].
        exists ds. by rewrite Hds, Hcalls, app_nil_r.
      * rewrite yielded_to_cons_self in Hwf.
        apply Forall_cons in Hwf as [[payload Hpay] Hwf].
        rewrite Hpay in Hcalls.
        assert (p = Iterating) as ->.
        { cbn in Hres. unfold loop_body in Hres. unfold payload_of in Hpay.
          destruct (on_result (task i) result) as [e|[line pl]];
            [done|].
          rewrite Hret, Hrun in Hres. cbn in Hres. congruence. }
        destruct (IH (resume_task i (Yielded result) c)) as (ds & Hds & Hn);
          try done; [by rewrite Hp, decide_True|by rewrite Hmon|].
        exists (payload :: ds). rewrite Hds, Hcalls, <- (assoc_L (++)).
        split; [done|]. rewrite yielded_to_cons_self. cbn.
        by rewrite Hpay, Hn.
    + destruct (step_not_for handle_critical_incident handle_incident_update
                  handle_new_incident i c (Resume j r) Hne) as (Hp' & _ & Hc).
      change (step c (Resume j r)) with (resume_task j r c) in Hp', Hc.
      rewrite yielded_to_cons_other in Hwf
        by (intros result [= -> _]; done).
      destruct (IH (resume_task j r c)) as (ds & Hds & Hn); try done;
        [by rewrite Hp'|by rewrite Hmon|].
      exists ds. rewrite Hds, Hc. split; [done|].
      by rewrite yielded_to_cons_other by (intros result [= -> _]; done).
  - destruct (IH (step c (TokenRefreshed t))) as (ds & Hds & Hn); try done.
    exists ds. by rewrite Hds.
Qed.

(** The payload handed to the handler is what the result holds under the
    subscription's field. *)
Lemma payload_of_field i result payload :
  payload_of (task i) result = Some payload →
  getitem result (result_field i) = inr payload.
Proof.
  unfold payload_of. destruct i; cbn;
    repeat (match goal with
            | |- context [getitem ?a ?b] =>
                let E := fresh "E" in destruct (getitem a b) eqn:E; [done|]
            end);
    by intros [= ->].
Qed.

(** A result that holds the field, and under it the keys the coroutine
    logs, is accepted. *)
Lemma well_formed_accepted i result :
  well_formed i result → is_Some (payload_of (task i) result).
Proof.
  intros (payload & Hp & Hk). unfold payload_of.
  destruct i; cbn in Hp, Hk |- *; rewrite Hp;
    repeat (apply Forall_cons in Hk as [[? ->] Hk]); done.
Qed.

Lemma payloads_are_fields i ds results :
  Some <$> ds = payload_of (task i) <$> results →
  (inr <$> ds : list (exn + value))
    = (fun result => getitem result (result_field i)) <$> results.
Proof.
  revert results. induction ds as [|d ds IH]; intros [|r results];
    try done.
  cbn. intros [= Hd Hl]. f_equal.
  - symmetry. by apply payload_of_field.
  - by apply IH.
Qed.

Lemma yielded_to_cons i ev evs result :
  result ∈ yielded_to i evs → result ∈ yielded_to i (ev :: evs).
Proof.
  intros H. destruct ev as [j r| |t]; try done.
  destruct r; try done. cbn.
  destruct (decide (j = i)); [by apply list_elem_of_further|done].
Qed.

(** Every call a handler has received in a run was made with the payload of
    a result yielded to its subscription in that run. *)
Lemma calls_from_results i evs c payload :
  payload ∈ calls_of i (trace (run c evs)) →
  payload ∈ calls_of i (trace c) ∨
  ∃ result, result ∈ yielded_to i evs ∧
            payload_of (task i) result = Some payload.
Proof.
  revert c. induction evs as [|ev evs IH]; intros c Hin; [by left|].
  rewrite run_cons in Hin. apply IH in Hin as [Hin|(result & Hr & Hp)].
  - destruct (decide (not_for i ev)) as [Hnf|Hnf].
    { destruct (step_not_for handle_critical_incident handle_incident_update
                  handle_new_incident i c ev Hnf) as (_ & _ & Hc).
      rewrite Hc in Hin. by left. }
    destruct ev as [j r| |t]; [|by destruct Hnf|by destruct Hnf].
    assert (j = i) as ->
      by (destruct (decide (j = i)); [done|by destruct Hnf]).
    change (step c (Resume i r)) with (resume_task i r c) in Hin.
    destruct (blocked c) eqn:Hb.
    { rewrite (resume_task_blocked handle_critical_incident
                 handle_incident_update handle_new_incident) in Hin by done.
      by left. }
    rewrite (resume_task_calls handle_critical_incident
               handle_incident_update handle_new_incident) in Hin by done.
    apply elem_of_app in Hin as [Hin|Hin]; [by left|]. right.
    destruct (phase_of c i), r as [| | |result| |];
      try (by apply elem_of_nil in Hin).
    destruct (payload_of (task i) result) as [p|] eqn:Hp;
      [|by apply elem_of_nil in Hin].
    apply list_elem_of_singleton in Hin as ->.
    exists result. split; [|done].
    rewrite yielded_to_cons_self. apply list_elem_of_here.
  - right. exists result. split; [|done]. by apply yielded_to_cons.
Qed.

(** C5.  Per-subscription delivery order.  For a subscription suspended in
    its [async for] and any schedule of the event loop, the handler calls
    made during the schedule are, in the order they were yielded, the
    values that a prefix of the results yielded to that subscription hold
    under the subscription's field: none is altered, reordered, repeated or
    skipped.  When nothing ends the loop (no stop signal, no end or failure
    of the stream, no stalling handler, a handler that returns, results
    that hold the field and the keys the coroutine logs), that prefix is
    the whole sequence. *)
Theorem per_subscription_order (c : config) (i : sub_id) (evs : list event) :
  phase_of c i = Iterating →
  ∃ ds,
    calls_of i (trace (run c evs)) = calls_of i (trace c) ++ ds ∧
    (∃ n, (inr <$> ds : list (exn + value))
          = (fun result => getitem result (result_field i))
              <$> take n (yielded_to i evs)) ∧
    (blocked c = false →
     running (monitor c) = true →
     (∀ j cs payload, handler (task j) cs payload ≠ NeverReturns) →
     (∀ cs payload, handler (task i) cs payload = Returns) →
     Forall (well_formed i) (yielded_to i evs) →
     Forall (calm i) evs →
     (inr <$> ds : list (exn + value))
       = (fun result => getitem result (result_field i))
           <$> yielded_to i evs).
Proof.
  intros Hph.
  destruct (order_prefix i evs c Hph) as (ds & n & Hds & Hn).
  exists ds. split; [done|].
  split; [exists n; by apply payloads_are_fields|].
  intros Hb Hrun Hns Hret Hwf Hcalm.
  assert (Hwf' : Forall (fun result => is_Some (payload_of (task i) result))
                        (yielded_to i evs)).
  { eapply Forall_impl; [exact Hwf|]. intros r. apply well_formed_accepted. }
  destruct (order_complete i evs c Hph Hb Hrun Hns Hret Hwf' Hcalm)
    as (ds' & Hds' & Hall).
  rewrite Hds in Hds'. apply app_inv_head in Hds' as <-.
  by apply payloads_are_fields.
Qed.

End Ordering.

(** ** Connections *)

Lemma except_Exception_frames co e :
  List.filter is_connect (except_Exception co e).2 = [] ∧
  List.filter is_subscribe (except_Exception co e).2 = [].
Proof. unfold except_Exception. by destruct (isinstance_Exception e). Qed.

(** A coroutine asks for the connection once, when it first runs, and on
    the transport of the monitor's client. *)
Lemma resume_connects co self calls p r :
  logs_lines co →
  List.filter is_connect (resume co self calls p r).2 =
    match p, r with
    | Created, Started => [Connect (client_transport (client self))]
    | _, _ => []
    end.
Proof.
  intros [Hstart Hco].
  destruct p, r; try done; cbn.
  - by destruct (start_line co).
  - apply except_Exception_frames.
  - unfold loop_body.
    destruct (on_result co result) as [e|[line payload]] eqn:Hres.
    + pose proof (except_Exception_frames co e) as [H _].
      by destruct (except_Exception co e).
    + specialize (Hco _ _ _ Hres). destruct line; try discriminate.
      destruct (handler co calls payload) as [|e|]; cbn.
      * by destruct (running self).
      * pose proof (except_Exception_frames co e) as [H _].
        by destruct (except_Exception co e).
      * done.
  - pose proof (except_Exception_frames co e) as [H _].
    by destruct (except_Exception co e).
Qed.

(** It subscribes once, when its own connection request has succeeded. *)
Lemma resume_subscribes co self calls p r :
  logs_lines co →
  length (List.filter is_subscribe (resume co self calls p r).2) =
    match p, r with
    | Entering, AenterOk => 1
    | _, _ => 0
    end.
Proof.
  intros [Hstart Hco].
  destruct p, r; try done; cbn.
  - by destruct (start_line co).
  - by rewrite (proj2 (except_Exception_frames co e)).
  - unfold loop_body.
    destruct (on_result co result) as [e|[line payload]] eqn:Hres.
    + pose proof (except_Exception_frames co e) as [_ H].
      destruct (except_Exception co e). cbn in *. by rewrite H.
    + specialize (Hco _ _ _ Hres). destruct line; try discriminate.
      destruct (handler co calls payload) as [|e|]; cbn.
      * by destruct (running self).
      * pose proof (except_Exception_frames co e) as [_ H].
        destruct (except_Exception co e). cbn in *. by rewrite H.
      * done.
  - pose proof (except_Exception_frames co e) as [_ H].
    destruct (except_Exception co e). cbn in *. by rewrite H.
Qed.

Lemma resume_started co self calls p r :
  started (resume co self calls p r).1 =
    match p, r with
    | Created, Started => true
    | _, _ => started p
    end.
Proof.
  destruct p, r; try done; cbn;
    try (unfold except_Exception; by destruct (isinstance_Exception _)).
  unfold loop_body.
  destruct (on_result co result) as [e|[line payload]].
  - unfold except_Exception. by destruct (isinstance_Exception e).
  - destruct (handler co calls payload) as [|e|]; [| |done].
    + by destruct (running self).
    + unfold except_Exception. by destruct (isinstance_Exception e).
Qed.

Lemma resume_entering co self calls p r :
  (resume co self calls p r).1 = Entering →
  (p = Created ∧ r = Started) ∨ (p = Entering ∧ r ≠ AenterOk).
Proof.
  destruct p, r; cbn; try done; auto;
    try (unfold except_Exception; by destruct (isinstance_Exception _)).
  unfold loop_body.
  destruct (on_result co result) as [e|[line payload]].
  - unfold except_Exception. by destruct (isinstance_Exception e).
  - destruct (handler co calls payload) as [|e|]; [| |done].
    + by destruct (running self).
    + unfold except_Exception. by destruct (isinstance_Exception e).
Qed.

Section Connections.

Variables handle_critical_incident handle_incident_update
          handle_new_incident : Handler.

Local Abbreviation task := (task handle_critical_incident
                              handle_incident_update handle_new_incident).
Local Abbreviation resume_task :=
  (resume_task handle_critical_incident handle_incident_update
               handle_new_incident).
Local Abbreviation step := (step handle_critical_incident
                              handle_incident_update handle_new_incident).
Local Abbreviation run := (run handle_critical_incident
                             handle_incident_update handle_new_incident).

Lemma connects_app tr1 tr2 :
  connects (tr1 ++ tr2) = connects tr1 ++ connects tr2.
Proof. unfold connects. by rewrite fmap_app, List.filter_app. Qed.

Lemma connects_by_app i tr1 tr2 :
  connects_by i (tr1 ++ tr2) = connects_by i tr1 + connects_by i tr2.
Proof.
  unfold connects_by.
  by rewrite actions_of_app, List.filter_app, length_app.
Qed.

Lemma subscribes_by_app i tr1 tr2 :
  subscribes_by i (tr1 ++ tr2) = subscribes_by i tr1 + subscribes_by i tr2.
Proof.
  unfold subscribes_by.
  by rewrite actions_of_app, List.filter_app, length_app.
Qed.

Lemma connects_tagged who (out : list effect) :
  connects ((fun e => (who, e)) <$> out) = List.filter is_connect out.
Proof.
  unfold connects. induction out as [|e out IH]; [done|].
  cbn. rewrite IH. by destruct e.
Qed.

Lemma n_started_set_phase i p c :
  n_started (set_phase i p c) + b2n (started (phase_of c i))
    = n_started c + b2n (started p).
Proof. unfold n_started. destruct i; cbn; lia. Qed.

Lemma connection_inv_main environ :
  connection_inv
    (transport (IncidentMonitor.__init__
                  (getenv environ "WS_URL" "ws://localhost:8080/graphql/ws")
                  (getenv environ "AUTH_TOKEN" "YOUR_JWT_TOKEN")))
    (main environ).
Proof.
  split; try done. by intros [].
Qed.

Lemma connection_inv_step t0 c ev :
  connection_inv t0 c → connection_inv t0 (step c ev).
Proof.
  intros [Ht Hcl Hcon Hby Hsub].
  destruct ev as [i r| |t].
  - change (step c (Resume i r)) with (resume_task i r c).
    destruct (blocked c) eqn:Hb.
    { rewrite resume_task_blocked by done. by split. }
    destruct (resume_task_unblocked handle_critical_incident
                handle_incident_update handle_new_incident i r c Hb)
      as (p & out & fin & Hres & Hfin & Hph & Hmon & _ & Htr).
    pose proof (resume_connects (task i) (monitor c) (calls_of i (trace c))
                  (phase_of c i) r (task_logs_lines _ _ _ i)) as Hrc.
    pose proof (resume_subscribes (task i) (monitor c) (calls_of i (trace c))
                  (phase_of c i) r (task_logs_lines _ _ _ i)) as Hrs.
    pose proof (resume_started (task i) (monitor c) (calls_of i (trace c))
                  (phase_of c i) r) as Hst.
    pose proof (resume_entering (task i) (monitor c) (calls_of i (trace c))
                  (phase_of c i) r) as Hen.
    rewrite Hres in Hrc, Hrs, Hst, Hen. cbn in Hrc, Hrs, Hst, Hen.
    rewrite Hcl in Hrc.
    assert (Hfc : connects fin = []) by (by destruct Hfin as [-> | ->]).
    assert (Hfa : ∀ j, actions_of j fin = [])
      by (intros j; by destruct Hfin as [-> | ->]).
    assert (Hns : n_started (resume_task i r c) + b2n (started (phase_of c i))
                  = n_started c + b2n (started p)).
    { rewrite <- (n_started_set_phase i p c). unfold n_started.
      pose proof (Hph Critical) as H1. pose proof (Hph Updates) as H2.
      pose proof (Hph NewIncidents) as H3. cbn in H1, H2, H3.
      rewrite H1, H2, H3. by destruct i. }
    split.
    + by rewrite Hmon.
    + by rewrite Hmon.
    + rewrite Htr, !connects_app, Hcon, connects_tagged, Hfc, app_nil_r, Hrc.
      destruct (phase_of c i) eqn:Ep, r; cbn in Hst;
        rewrite ?app_nil_r; try (f_equal; rewrite Hst in Hns; cbn in Hns; lia).
      rewrite Hst in Hns. cbn in Hns.
      replace (n_started (resume_task i Started c)) with (S (n_started c))
        by lia.
      by rewrite replicate_S_end.
    + intros j. rewrite Htr, !connects_by_app, Hby, Hph.
      unfold connects_by at 2. rewrite Hfa. cbn. rewrite Nat.add_0_r.
      destruct (decide (i = j)) as [<-|Hne].
      * unfold connects_by. rewrite actions_of_self, Hrc, Hst.
        by destruct (phase_of c i), r.
      * unfold connects_by. rewrite actions_of_other by done. cbn. lia.
    + intros j. rewrite Htr, !subscribes_by_app, !connects_by_app, Hph.
      unfold subscribes_by at 3. unfold connects_by at 3.
      unfold subscribes_by at 5. rewrite !Hfa. cbn. rewrite !Nat.add_0_r.
      destruct (Hsub j) as [Hle Hen0].
      destruct (decide (i = j)) as [<-|Hne].
      * unfold subscribes_by at 2. unfold connects_by at 2.
        unfold subscribes_by at 3.
        rewrite !actions_of_self, Hrc, Hrs.
        split.
        -- pose proof (Hby i) as Hz.
           destruct (phase_of c i), r; cbn in Hz |- *; try lia.
           specialize (Hen0 eq_refl). lia.
        -- intros ->. destruct (Hen eq_refl) as [[Ep ->]|[Ep Hr]].
           ++ pose proof (Hby i) as Hz. rewrite Ep in Hz |- *.
              cbn in Hz |- *. lia.
           ++ rewrite Hen0, Ep by done. by destruct r.
      * unfold subscribes_by at 2. unfold connects_by at 2.
        unfold subscribes_by at 3.
        rewrite !actions_of_other by done. cbn. rewrite !Nat.add_0_r.
        done.
  - change (step c Signal) with (signal_handler c).
    destruct (signal_handler_spec c) as (Hmon & _ & Hph & Htr).
    assert (Hn : n_started (signal_handler c) = n_started c) by done.
    split.
    + by rewrite Hmon.
    + by rewrite Hmon.
    + rewrite Htr, connects_app, Hcon, Hn. cbn. by rewrite app_nil_r.
    + intros j. rewrite Htr, connects_by_app, Hph, Hby.
      unfold connects_by. rewrite actions_of_main2. cbn. lia.
    + intros j. rewrite Htr, subscribes_by_app, connects_by_app, Hph.
      unfold subscribes_by at 2. unfold connects_by at 2.
      unfold subscribes_by at 3.
      rewrite !actions_of_main2.
      cbn. rewrite !Nat.add_0_r. apply Hsub.
  - split; done.
Qed.

Lemma connection_inv_run t0 c evs :
  connection_inv t0 c → connection_inv t0 (run c evs).
Proof.
  revert c. induction evs as [|ev evs IH]; intros c Hc; [done|].
  rewrite run_cons. apply IH. by apply connection_inv_step.
Qed.

End Connections.

(** ** Failures *)


Section Failures.

Variables handle_critical_incident handle_incident_update
          handle_new_incident : Handler.

Local Abbreviation task := (task handle_critical_incident
                              handle_incident_update handle_new_incident).
Local Abbreviation resume_task :=
  (resume_task handle_critical_incident handle_incident_update
               handle_new_incident).
Local Abbreviation step := (step handle_critical_incident
                              handle_incident_update handle_new_incident).
Local Abbreviation run := (run handle_critical_incident
                             handle_incident_update handle_new_incident).

Lemma resume_task_actions i r c :
  blocked c = false →
  actions_of i (trace (resume_task i r c)) =
    actions_of i (trace c) ++
    (resume (task i) (monitor c) (calls_of i (trace c)) (phase_of c i) r).2.
Proof.
  intros Hb.
  destruct (resume_task_unblocked handle_critical_incident
              handle_incident_update handle_new_incident i r c Hb)
    as (p & out & fin & Hres & Hfin & _ & _ & _ & Htr).
  rewrite Htr, Hres, !actions_of_app, actions_of_self.
  assert (Hf : actions_of i fin = []) by (by destruct Hfin as [-> | ->]).
  by rewrite Hf, app_nil_r.
Qed.

Lemma resume_task_others i r c j :
  j ≠ i →
  phase_of (resume_task i r c) j = phase_of c j ∧
  actions_of j (trace (resume_task i r c)) = actions_of j (trace c) ∧
  calls_of j (trace (resume_task i r c)) = calls_of j (trace c).
Proof.
  intros Hne.
  by apply (step_not_for handle_critical_incident handle_incident_update
              handle_new_incident j c (Resume i r)).
Qed.

(** What a caught session failure does to its subscription: the coroutine
    leaves [async with] if it had entered it, logs the error line and
    returns, without a handler call. *)
Lemma session_failure_caught c i r e :
  blocked c = false →
  session_failure (phase_of c i) r e →
  isinstance_Exception e = true →
  phase_of (resume_task i r c) i = Returned ∧
  actions_of i (trace (resume_task i r c)) =
    actions_of i (trace c)
    ++ (if entered (phase_of c i) then [Close] else [])
    ++ [Log ERROR (error_fmt (task i)) [AExn e]] ∧
  calls_of i (trace (resume_task i r c)) = calls_of i (trace c).
Proof.
  intros Hb Hf He.
  rewrite (resume_task_phase handle_critical_incident handle_incident_update
             handle_new_incident) by done.
  rewrite resume_task_actions by done.
  rewrite (resume_task_calls handle_critical_incident handle_incident_update
             handle_new_incident) by done.
  destruct Hf as [[-> ->]|[-> ->]]; cbn;
    rewrite (except_Exception_caught _ _ He); cbn;
    by rewrite app_nil_r.
Qed.

(** Whatever the schedule, the monitor and its client keep the one
    transport that [__init__] built and every connection request is made on
    it; each subscription coroutine enters [async with self.client] itself,
    so the requests in the trace are as many as the subscriptions that have
    begun to run, each subscription makes exactly one, and a subscription
    is issued only by a coroutine that has made its own. *)
Lemma one_connect_request_per_subscription
    (environ : gmap string string) (evs : list event) :
  let c := run (main environ) evs in
  let t0 := transport
              (IncidentMonitor.__init__
                 (getenv environ "WS_URL" "ws://localhost:8080/graphql/ws")
                 (getenv environ "AUTH_TOKEN" "YOUR_JWT_TOKEN")) in
  transport (monitor c) = t0 ∧
  client_transport (client (monitor c)) = t0 ∧
  connects (trace c) = replicate (n_started c) (Connect t0) ∧
  ∀ i, connects_by i (trace c) = b2n (started (phase_of c i)) ∧
       subscribes_by i (trace c) ≤ connects_by i (trace c).
Proof.
  intros c t0.
  destruct (connection_inv_run handle_critical_incident
              handle_incident_update handle_new_incident t0 (main environ) evs
              (connection_inv_main environ)) as [H1 H2 H3 H4 H5].
  split; [done|]. split; [done|]. split; [done|].
  intros i. split; [apply H4|apply H5].
Qed.

(** C1.  The program at the run in which the client serves one session.
    [main] gathers the three subscription coroutines on the one client of
    the monitor, and each of them enters [async with self.client] itself:
    three connection requests are made on the one transport.  The request
    of the critical-incidents subscription is granted and its subscription
    is issued; the two others are refused, being made on a client that is
    connected already: their coroutines log the refusal and return, and
    whatever happens afterwards their subscriptions are never issued and
    their handlers never called.  The subscriptions are not carried
    together by the one connection. *)
Theorem refused_subscriptions_are_never_issued
    (environ : gmap string string) :
  let c := run (main environ) (granted Critical) in
  let t0 := transport
              (IncidentMonitor.__init__
                 (getenv environ "WS_URL" "ws://localhost:8080/graphql/ws")
                 (getenv environ "AUTH_TOKEN" "YOUR_JWT_TOKEN")) in
  connects (trace c) = [Connect t0; Connect t0; Connect t0] ∧
  phase_of c Critical = Iterating ∧
  subscribes_by Critical (trace c) = 1 ∧
  ∀ j, j ≠ Critical →
    phase_of c j = Returned ∧
    last (actions_of j (trace c))
      = Some (Log ERROR (error_fmt (task j)) [AExn already_connected]) ∧
    ∀ evs,
      phase_of (run c evs) j = Returned ∧
      subscribes_by j (trace (run c evs)) = 0 ∧
      calls_of j (trace (run c evs)) = [].
Proof.
  intros c t0.
  split; [done|]. split; [done|]. split; [done|].
  intros j Hj.
  assert (Hp : phase_of c j = Returned).
  { destruct j; [by destruct Hj|reflexivity|reflexivity]. }
  split; [exact Hp|].
  split.
  { destruct j; [by destruct Hj|vm_compute; reflexivity|vm_compute; reflexivity]. }
  intros evs.
  destruct (terminal_run handle_critical_incident handle_incident_update
              handle_new_incident j c evs) as (Hp' & Ha' & Hc');
    [by rewrite Hp|].
  unfold subscribes_by. rewrite Hp', Ha', Hc'.
  split; [exact Hp|].
  destruct j; [by destruct Hj| |]; split; vm_compute; reflexivity.
Qed.

(** C8.  The credential of a handshake.  The connection_init payload is
    computed once, in [__init__], from the token [main] read when it
    started; every connection request of the run carries that payload,
    whatever the credential has become in the meantime. *)
Theorem handshake_carries_startup_token
    (environ : gmap string string) (evs : list event)
    (who : actor) (t : WebsocketsTransport) :
  (who, Connect t) ∈ trace (run (main environ) evs) →
  init_payload t =
    {[ "Authorization" :=
         "Bearer " +:+ getenv environ "AUTH_TOKEN" "YOUR_JWT_TOKEN" ]}.
Proof.
  intros Hin.
  destruct (connection_inv_run handle_critical_incident
              handle_incident_update handle_new_incident _ (main environ) evs
              (connection_inv_main environ)) as [_ _ H3 _ _].
  assert (Hc : Connect t ∈ connects (trace (run (main environ) evs))).
  { unfold connects. apply list_elem_of_In, List.filter_In. split; [|done].
    apply list_elem_of_In, list_elem_of_fmap. by exists (who, Connect t). }
  rewrite H3 in Hc. apply elem_of_replicate in Hc as [Hc _].
  by injection Hc as ->.
Qed.

(** C3.  No reconnection.  When the connection is refused or the stream of
    results breaks, with any exception that is an instance of Exception,
    the subscription coroutine leaves the session if it had entered it,
    logs the error line under its own name and returns; from then on,
    whatever the environment offers, it stays returned and does nothing: no
    connection request, no subscribe, no handler call. *)
Theorem transport_failure_ends_subscription
    (c : config) (i : sub_id) (r : resumption) (e : exn) :
  blocked c = false →
  session_failure (phase_of c i) r e →
  isinstance_Exception e = true →
  let c' := step c (Resume i r) in
  phase_of c' i = Returned ∧
  actions_of i (trace c') =
    actions_of i (trace c)
    ++ (if entered (phase_of c i) then [Close] else [])
    ++ [Log ERROR (error_fmt (task i)) [AExn e]] ∧
  ∀ evs,
    phase_of (run c' evs) i = Returned ∧
    actions_of i (trace (run c' evs)) = actions_of i (trace c') ∧
    connects_by i (trace (run c' evs)) = connects_by i (trace c) ∧
    subscribes_by i (trace (run c' evs)) = subscribes_by i (trace c) ∧
    calls_of i (trace (run c' evs)) = calls_of i (trace c).
Proof.
  intros Hb Hf He c'.
  destruct (session_failure_caught c i r e Hb Hf He) as (Hp & Ha & Hc).
  change (resume_task i r c) with c' in Hp, Ha, Hc.
  split; [done|]. split; [done|]. intros evs.
  destruct (terminal_run handle_critical_incident handle_incident_update
              handle_new_incident i c' evs) as (Hp' & Ha' & Hc');
    [by rewrite Hp|].
  rewrite Hp', Hc'. split; [done|]. split; [done|].
  unfold connects_by, subscribes_by. rewrite Ha', Ha.
  rewrite !List.filter_app, !length_app.
  split; [|split; [|done]]; destruct (entered _); cbn; lia.
Qed.

(** C6.  Where failures go.  Every exception of class Exception that the
    session raises, be it a failure of the transport or the server's error
    frame for this subscription, is handled in the same place: the
    [except] clause of the subscription coroutine, which logs it under that
    subscription's name and ends the subscription.  No failure of either
    kind is passed to the handler: the failure adds no call, and in every
    run of the program each call a handler receives carries what a result
    yielded to its subscription holds under the subscription's field. *)
Theorem failures_end_in_except_clause
    (c : config) (i : sub_id) (r : resumption) (e : exn) :
  blocked c = false →
  session_failure (phase_of c i) r e →
  isinstance_Exception e = true →
  let c' := step c (Resume i r) in
  phase_of c' i = Returned ∧
  actions_of i (trace c') =
    actions_of i (trace c)
    ++ (if entered (phase_of c i) then [Close] else [])
    ++ [Log ERROR (error_fmt (task i)) [AExn e]] ∧
  calls_of i (trace c') = calls_of i (trace c) ∧
  (∀ evs, calls_of i (trace (run c' evs)) = calls_of i (trace c)) ∧
  (∀ environ evs payload,
     payload ∈ calls_of i (trace (run (main environ) evs)) →
     ∃ result, result ∈ yielded_to i evs ∧
               getitem result (result_field i) = inr payload).
Proof.
  intros Hb Hf He c'.
  destruct (session_failure_caught c i r e Hb Hf He) as (Hp & Ha & Hc).
  change (resume_task i r c) with c' in Hp, Ha, Hc.
  split; [done|]. split; [done|]. split; [done|]. split.
  - intros evs.
    destruct (terminal_run handle_critical_incident handle_incident_update
                handle_new_incident i c' evs) as (_ & _ & ->);
      [by rewrite Hp|done].
  - intros environ evs payload Hin.
    apply (calls_from_results handle_critical_incident
             handle_incident_update handle_new_incident) in Hin
      as [Hin|(result & Hr & Hpay)].
    + destruct i; by apply elem_of_nil in Hin.
    + exists result. split; [done|].
      by apply (payload_of_field handle_critical_incident
                  handle_incident_update handle_new_incident).
Qed.

End Failures.

(** ** The engine of the design: stale server ids, cancel *)

Section EngineProperties.

Import Engine.

Lemma resolve_Some s id k :
  resolve s id = Some k → active s !! k = Some id.
Proof.
  unfold resolve. intros H.
  destruct (list_find _ _) as [[i [k' id']]|] eqn:Hf; [|done].
  cbn in H. injection H as ->.
  apply list_find_Some in Hf as (Hl & Hid & _). cbn in Hid. subst id'.
  apply elem_of_map_to_list. apply list_elem_of_lookup. by exists i.
Qed.

Lemma engine_inv_init : engine_inv init.
Proof. split; [|done]. intros k id. cbn. by rewrite lookup_empty. Qed.

Lemma engine_inv_delete s k a :
  engine_inv s →
  state a = state s → generation a = generation s →
  assigned a = assigned s → active a = delete k (active s) →
  engine_inv a.
Proof.
  intros [H1 H2] Hs Hg Has Hac. split.
  - intros k' id. rewrite Hac, Hg, Has.
    intros H. apply lookup_delete_Some in H as [_ H]. by apply (H1 k').
  - rewrite Hs, Hac. intros Hr Hd. rewrite H2 by done. apply delete_empty.
Qed.

Lemma engine_inv_same s a :
  engine_inv s →
  state a = state s → generation a = generation s →
  assigned a = assigned s → active a = active s →
  engine_inv a.
Proof.
  intros [H1 H2] Hs Hg Has Hac. split.
  - intros k id. rewrite Hac, Hg, Has. apply H1.
  - rewrite Hs, Hac. apply H2.
Qed.

Lemma engine_inv_empty a :
  state a ≠ Ready → active a = ∅ → engine_inv a.
Proof.
  intros Hs Hac. split.
  - intros k id. rewrite Hac. by rewrite lookup_empty.
  - done.
Qed.

Lemma engine_inv_step s i : engine_inv s → engine_inv (step s i).
Proof.
  intros Hinv. pose proof Hinv as [H1 H2].
  destruct i; cbn.
  - (* Add *)
    unfold add. case_bool_decide; [done|].
    destruct (state s) eqn:Hs; by apply (engine_inv_same s).
  - (* Cancel *)
    unfold cancel. destruct (active s !! k) as [id|] eqn:Hk.
    + by apply (engine_inv_delete s k).
    + by apply (engine_inv_same s).
  - destruct (state s) eqn:Hs; try done.
    apply engine_inv_empty; [done|]. cbn. by apply H2.
  - destruct (state s) eqn:Hs; try done.
    apply engine_inv_empty; [done|]. cbn. by apply H2.
  - destruct (state s) eqn:Hs; try done.
    apply engine_inv_empty; [done|]. cbn. by apply H2.
  - (* Acked: the generation changes while no entry exists *)
    destruct (state s) eqn:Hs; try done.
    assert (Hem : active s = ∅) by (by apply H2).
    split; cbn.
    + intros k id. rewrite Hem. by rewrite lookup_empty.
    + done.
  - destruct (state s) eqn:Hs; try done.
    apply engine_inv_empty; [done|]. cbn. by apply H2.
  - (* Subscribed *)
    destruct (state s) eqn:Hs; try done.
    split; cbn; [|done].
    intros k' id'. rewrite lookup_insert.
    case_decide.
    + intros [= <-]. apply elem_of_app. right. by apply list_elem_of_singleton.
    + intros H'. apply elem_of_app. left. by apply (H1 k').
  - (* Inbound *)
    destruct (state s) eqn:Hs; try done.
    unfold dispatch. destruct (resolve s (target ev)) as [k|]; [|done].
    destruct ev.
    + by apply (engine_inv_same s).
    + by apply (engine_inv_delete s k).
    + by apply (engine_inv_same s).
  - destruct (state s) eqn:Hs; try done;
      by apply (engine_inv_same s).
  - destruct (state s) eqn:Hs; try done;
      by apply engine_inv_empty.
  - destruct (state s) eqn:Hs; try done;
      apply engine_inv_empty; [done|]; cbn; by apply H2.
  - by apply engine_inv_empty.
Qed.

Lemma engine_inv_run s ins : engine_inv s → engine_inv (run s ins).
Proof.
  revert s. induction ins as [|i ins IH]; intros s Hs; [done|].
  cbn. apply IH. by apply engine_inv_step.
Qed.

(** C4.  Events of a stale generation are dropped, when their id has not
    been given out again.  In every state the engine reaches, an inbound
    event (data, error or complete) tagged with a server subscription id
    that was assigned in an earlier generation and has not been assigned in
    the current one does not resolve in the ActiveSubscription map of the
    current generation: dispatching it leaves every delivery queue, and the
    whole engine, as it was. *)
Theorem stale_event_is_dropped_unless_reassigned
    (ins : list input) (ev : InboundEvent) :
  stale (run init ins) (target ev) →
  (¬ current (run init ins) (target ev)) →
  step (run init ins) (Inbound ev) = run init ins ∧
  queues (step (run init ins) (Inbound ev)) = queues (run init ins).
Proof.
  intros _ Hnot.
  assert (step (run init ins) (Inbound ev) = run init ins) as ->; [|done].
  destruct (engine_inv_run init ins engine_inv_init) as [H1 _].
  cbn. destruct (state (run init ins)); try done.
  unfold dispatch.
  destruct (resolve (run init ins) (target ev)) as [k|] eqn:Hr; [|done].
  apply resolve_Some in Hr. by apply H1 in Hr.
Qed.









End EngineProperties.

(** ** Concrete runs *)

(** C4, counterexample.  Id 7 was assigned in generation 1, so it is an id
    from a stale generation in generation 2; but the server has given it
    out again, to the second subscription, and the event tagged 7 is not
    dropped: it is pushed on the delivery queue of that subscription. *)
Lemma reassigned_id_is_delivered :
  Engine.generation (Engine.run Engine.init reassigned) = 2 ∧
  Engine.stale (Engine.run Engine.init reassigned) 7 ∧
  Engine.queues (Engine.run Engine.init reassigned) !! 2 = Some [] ∧
  Engine.queues (Engine.step (Engine.run Engine.init reassigned)
                   (Engine.Inbound (Engine.Next 7 (VStr "late")))) !! 2
    = Some [Engine.Payload (VStr "late")].
Proof.
  split; [vm_compute; reflexivity|]. split.
  - exists 1. split.
    + vm_compute. lia.
    + apply (bool_decide_unpack _). vm_compute. exact I.
  - split; vm_compute; reflexivity.
Qed.

(** C3, counterexample.  After the connection is lost the subscription has
    returned; the new session and the new result that the schedule offers
    are not taken: still one connection request, one subscribe, and the one
    call made before the failure. *)
Lemma no_resubscription_after_connection_lost :
  phase_of (run_returning (main ∅) lossy_schedule) Critical = Returned ∧
  connects_by Critical (trace (run_returning (main ∅) lossy_schedule)) = 1 ∧
  subscribes_by Critical (trace (run_returning (main ∅) lossy_schedule)) = 1 ∧
  calls_of Critical (trace (run_returning (main ∅) lossy_schedule))
    = [critical_payload "INC-1"].
Proof. vm_compute. by repeat split. Qed.

(** C6, counterexample.  A lost connection is logged by the subscription
    under its own name and ends it; and the server's error frame for the
    subscription is not handed to the handler, which is never called. *)
Lemma failures_surface_in_the_subscription_only :
  phase_of (after_failure connection_lost) Critical = Returned ∧
  last (actions_of Critical (trace (after_failure connection_lost)))
    = Some (Log ERROR "Critical incidents subscription error: {}"
              [AExn connection_lost]) ∧
  phase_of (after_failure server_error_frame) Critical = Returned ∧
  last (actions_of Critical (trace (after_failure server_error_frame)))
    = Some (Log ERROR "Critical incidents subscription error: {}"
              [AExn server_error_frame]) ∧
  calls_of Critical (trace (after_failure server_error_frame)) = [].
Proof. vm_compute. by repeat split. Qed.

(** C8, counterexample.  The handshake asked for after the credential was
    replaced still carries the token read at start. *)
Lemma refreshed_token_is_not_used :
  current_token refreshed = "t2" ∧
  (init_payload <$> head (omap (fun e => match e with
                                         | Connect t => Some t
                                         | _ => None
                                         end) (connects (trace refreshed))))
    = Some {[ "Authorization" := "Bearer t1" ]} ∧
  "Bearer t1" ≠ "Bearer " +:+ current_token refreshed.
Proof.
  split; [vm_compute; reflexivity|]. split; [vm_compute; reflexivity|].
  apply (bool_decide_unpack _). vm_compute. exact I.
Qed.


(** *** The theorems at concrete inputs *)

(** C3 at a concrete input: one session is held, by the critical
    subscription; its stream breaks, and a new session offered afterwards
    is not taken. *)
Lemma transport_failure_ends_subscription_witness :
  blocked one_granted = false ∧
  is_transport_failure connection_lost = true ∧
  isinstance_Exception connection_lost = true ∧
  last (actions_of Critical
          (trace (step returning_handler returning_handler returning_handler
                    one_granted
                    (Resume Critical (AnextRaised connection_lost)))))
    = Some (Log ERROR "Critical incidents subscription error: {}"
              [AExn connection_lost]) ∧
  phase_of (run returning_handler returning_handler returning_handler
              (step returning_handler returning_handler returning_handler
                 one_granted (Resume Critical (AnextRaised connection_lost)))
              [Resume Critical Started; Resume Critical AenterOk])
           Critical = Returned.
Proof.
  assert (H1 : blocked one_granted = false) by (vm_compute; reflexivity).
  split; [exact H1|]. split; [reflexivity|]. split; [reflexivity|].
  pose proof (transport_failure_ends_subscription
                returning_handler returning_handler returning_handler
                one_granted Critical (AnextRaised connection_lost)
                connection_lost H1) as H.
  cbv zeta in H.
  destruct H as (_ & Ha & H); [right; split; vm_compute; reflexivity|reflexivity|].
  split.
  - etransitivity; [exact (f_equal last Ha)|]. vm_compute. reflexivity.
  - exact (proj1 (H [Resume Critical Started; Resume Critical AenterOk])).
Defined.

(** C6 at a concrete input: the server's error frame for the critical
    subscription does not reach the handler. *)
Lemma failures_end_in_except_clause_witness :
  blocked one_granted = false ∧
  is_subscription_error server_error_frame = true ∧
  isinstance_Exception server_error_frame = true ∧
  calls_of Critical
    (trace (step returning_handler returning_handler returning_handler
              one_granted (Resume Critical (AnextRaised server_error_frame))))
  = calls_of Critical (trace one_granted).
Proof.
  assert (H1 : blocked one_granted = false) by (vm_compute; reflexivity).
  split; [exact H1|]. split; [reflexivity|]. split; [reflexivity|].
  pose proof (failures_end_in_except_clause
                returning_handler returning_handler returning_handler
                one_granted Critical (AnextRaised server_error_frame)
                server_error_frame H1) as H.
  cbv zeta in H.
  destruct H as (_ & _ & H & _);
    [right; split; vm_compute; reflexivity|reflexivity|].
  exact H.
Defined.

(** C8 at a concrete input: started with token t1, refreshed to t2. *)
Lemma handshake_carries_startup_token_witness :
  init_payload
    (transport (IncidentMonitor.__init__ "ws://localhost:8080/graphql/ws" "t1"))
  = {[ "Authorization" :=
         "Bearer " +:+ getenv {[ "AUTH_TOKEN" := "t1" ]}
                         "AUTH_TOKEN" "YOUR_JWT_TOKEN" ]}.
Proof.
  apply (handshake_carries_startup_token
           returning_handler returning_handler returning_handler
           {[ "AUTH_TOKEN" := "t1" ]}
           [TokenRefreshed "t2"; Resume Critical Started]
           (Task Critical)).
  apply list_elem_of_In. vm_compute.
  right. right. right. left. reflexivity.
Defined.


(** C5 at a concrete input: the critical subscription holds the session
    and three incidents are yielded to it, with a token refresh in
    between. *)
Lemma per_subscription_order_witness :
  phase_of one_granted Critical = Iterating ∧
  ∃ ds,
    calls_of Critical
      (trace (run returning_handler returning_handler returning_handler
                one_granted critical_stream))
      = calls_of Critical (trace one_granted) ++ ds ∧
    (inr <$> ds : list (exn + value))
      = (fun result => getitem result (result_field Critical))
          <$> yielded_to Critical critical_stream.
Proof.
  assert (H1 : phase_of one_granted Critical = Iterating)
    by (vm_compute; reflexivity).
  split; [exact H1|].
  destruct (per_subscription_order
              returning_handler returning_handler returning_handler
              one_granted Critical critical_stream H1) as (ds & Hds & _ & Hall).
  exists ds. split; [exact Hds|]. apply Hall.
  - vm_compute. reflexivity.
  - vm_compute. reflexivity.
  - intros [] cs payload; discriminate.
  - reflexivity.
  - change (yielded_to Critical critical_stream)
      with [critical_result "INC-1"; critical_result "INC-2";
            critical_result "INC-3"].
    repeat (apply Forall_cons; split;
            [eexists; split;
             [vm_compute; reflexivity
             |apply Forall_cons; split;
              [eexists; vm_compute; reflexivity|apply Forall_nil; exact I]]|]).
    apply Forall_nil. exact I.
  - unfold critical_stream.
    repeat (apply Forall_cons; split; [exact I|]).
    apply Forall_nil. exact I.
Defined.

(** C4 at a concrete input: id 7 of generation 1, injected in generation 2,
    in which the subscription has id 8. *)
Lemma stale_event_is_dropped_unless_reassigned_witness :
  Engine.stale (Engine.run Engine.init reconnected) 7 ∧
  (¬ Engine.current (Engine.run Engine.init reconnected) 7) ∧
  Engine.queues (Engine.step (Engine.run Engine.init reconnected)
                   (Engine.Inbound (Engine.Next 7 VNone)))
  = Engine.queues (Engine.run Engine.init reconnected).
Proof.
  assert (H1 : Engine.stale (Engine.run Engine.init reconnected) 7).
  { exists 1. split.
    - vm_compute. lia.
    - apply (bool_decide_unpack _). vm_compute. exact I. }
  assert (H2 : ¬ Engine.current (Engine.run Engine.init reconnected) 7).
  { unfold Engine.current. apply (bool_decide_unpack _). vm_compute. exact I. }
  split; [exact H1|]. split; [exact H2|].
  exact (proj2 (stale_event_is_dropped_unless_reassigned reconnected
                  (Engine.Next 7 VNone) H1 H2)).
Defined.


(** * Further properties *)

(** ** The notification handlers *)

Lemma getitem_dict_Some v k x :
  getitem v k = inr x ↔ ∃ d, v = VDict d ∧ d !! k = Some x.
Proof.
  split.
  - destruct v as [| | |d]; cbn; try discriminate.
    destruct (d !! k) eqn:E; [|discriminate].
    intros [= <-]. by exists d.
  - intros (d & -> & H). cbn. by rewrite H.
Qed.

Lemma getitem_error_class v k e :
  getitem v k = inl e → exn_class e = KeyError ∨ exn_class e = TypeError.
Proof.
  destruct v as [| | |d]; cbn; try (intros [= <-]; cbn; auto).
  destruct (d !! k); [discriminate|]. intros [= <-]. cbn. auto.
Qed.

Lemma join_error_class v e :
  join_error v = Some e → exn_class e = TypeError.
Proof.
  destruct v as [| |l|d]; cbn; try discriminate.
  - by intros [= <-].
  - destruct (list_find _ l); cbn; [|discriminate]. by intros [= <-].
Qed.

(** X11.  [handle_incident_update] prints its one line exactly when the update is
    a dict that holds updateType, incidentId and timestamp; otherwise it
    prints nothing and raises a KeyError or a TypeError. *)
Theorem handle_incident_update_spec (update : value) :
  ((handle_incident_update update).2 = None ↔
   ∃ d a b t, update = VDict d ∧ d !! "updateType" = Some a ∧
              d !! "incidentId" = Some b ∧ d !! "timestamp" = Some t ∧
              (handle_incident_update update).1
                = [Print "📢 {}: {} at {}" [PVal a; PVal b; PVal t]]) ∧
  (∀ e, (handle_incident_update update).2 = Some e →
        (handle_incident_update update).1 = [] ∧
        (exn_class e = KeyError ∨ exn_class e = TypeError)).
Proof.
  unfold handle_incident_update.
  destruct (getitem update "updateType") as [e1|a] eqn:H1.
  { cbn. split; [split; [done|]|].
    - intros (d & a & b & t & -> & Ha & _). cbn in H1. by rewrite Ha in H1.
    - intros e [= <-]. split; [done|]. by eapply getitem_error_class. }
  destruct (getitem update "incidentId") as [e2|b] eqn:H2.
  { cbn. split; [split; [done|]|].
    - intros (d & a' & b & t & -> & _ & Hb & _). cbn in H2.
      by rewrite Hb in H2.
    - intros e [= <-]. split; [done|]. by eapply getitem_error_class. }
  destruct (getitem update "timestamp") as [e3|t] eqn:H3.
  { cbn. split; [split; [done|]|].
    - intros (d & a' & b' & t & -> & _ & _ & Ht & _). cbn in H3.
      by rewrite Ht in H3.
    - intros e [= <-]. split; [done|]. by eapply getitem_error_class. }
  cbn. split; [|done]. split; [|done]. intros _.
  apply getitem_dict_Some in H1 as (d & -> & Ha).
  apply getitem_dict_Some in H2 as (d' & [= <-] & Hb).
  apply getitem_dict_Some in H3 as (d' & [= <-] & Ht).
  by exists d, a, b, t.
Qed.

(** X12.  [handle_new_incident] prints its one line exactly when the incident is
    a dict that holds severity and title; otherwise it prints nothing and
    raises a KeyError or a TypeError. *)
Theorem handle_new_incident_spec (incident : value) :
  ((handle_new_incident incident).2 = None ↔
   ∃ d s t, incident = VDict d ∧ d !! "severity" = Some s ∧
            d !! "title" = Some t ∧
            (handle_new_incident incident).1
              = [Print "🆕 New {} incident: {}" [PVal s; PVal t]]) ∧
  (∀ e, (handle_new_incident incident).2 = Some e →
        (handle_new_incident incident).1 = [] ∧
        (exn_class e = KeyError ∨ exn_class e = TypeError)).
Proof.
  unfold handle_new_incident.
  destruct (getitem incident "severity") as [e1|s] eqn:H1.
  { cbn. split; [split; [done|]|].
    - intros (d & s & t & -> & Hs & _). cbn in H1. by rewrite Hs in H1.
    - intros e [= <-]. split; [done|]. by eapply getitem_error_class. }
  destruct (getitem incident "title") as [e2|t] eqn:H2.
  { cbn. split; [split; [done|]|].
    - intros (d & s' & t & -> & _ & Ht & _). cbn in H2. by rewrite Ht in H2.
    - intros e [= <-]. split; [done|]. by eapply getitem_error_class. }
  cbn. split; [|done]. split; [|done]. intros _.
  apply getitem_dict_Some in H1 as (d & -> & Hs).
  apply getitem_dict_Some in H2 as (d' & [= <-] & Ht).
  by exists d, s, t.
Qed.

(** X13.  On a dict that lacks one of the keys it prints, [handle_critical_incident]
    raises the KeyError of the first missing key, in the order id, title,
    severity, state, createdAt, affectedResources, after it has printed the
    three banner lines and one line for each key before the missing one. *)
Theorem handle_critical_incident_first_missing_key
    (d : gmap string value) (n : nat) (k : string) :
  critical_keys !! n = Some k →
  d !! k = None →
  (∀ k', k' ∈ take n critical_keys → is_Some (d !! k')) →
  (handle_critical_incident (VDict d)).2 = Some (Exn KeyError k) ∧
  length (handle_critical_incident (VDict d)).1 = 3 + n.
Proof.
  intros Hk Hnone Hbefore.
  assert (Hn : n < 6).
  { apply lookup_lt_Some in Hk. exact Hk. }
  assert (Hb : Forall (fun k' => is_Some (d !! k')) (take n critical_keys)).
  { by apply Forall_forall. }
  clear Hbefore.
  unfold handle_critical_incident, print_field.
  do 6 (destruct n as [|n];
        [ cbn in Hk, Hb; injection Hk as <-;
          repeat (match goal with
                  | H : Forall _ (_ :: _) |- _ =>
                      let x := fresh "x" in
                      let E := fresh "E" in
                      apply Forall_cons in H as [[x E] H]
                  end);
          cbn [getitem];
          repeat (match goal with
                  | E : d !! _ = Some _ |- _ => rewrite E; clear E
                  end);
          rewrite Hnone; cbn; done
        | ]).
  lia.
Qed.

(** X14.  [handle_critical_incident] returns exactly when the incident is a dict
    that holds the six keys and whose affectedResources can be joined (a
    string, a dict, or a list of strings); it has then printed ten lines.
    Whenever it raises, the exception is a KeyError or a TypeError, and the
    three banner lines have been printed all the same. *)
Theorem handle_critical_incident_spec (incident : value) :
  ((handle_critical_incident incident).2 = None ↔
   ∃ d resources,
     incident = VDict d ∧
     Forall (fun k => is_Some (d !! k)) critical_keys ∧
     d !! "affectedResources" = Some resources ∧
     join_error resources = None) ∧
  ((handle_critical_incident incident).2 = None →
   length (handle_critical_incident incident).1 = 10) ∧
  (∀ e, (handle_critical_incident incident).2 = Some e →
        (exn_class e = KeyError ∨ exn_class e = TypeError) ∧
        3 ≤ length (handle_critical_incident incident).1).
Proof.
  unfold handle_critical_incident, print_field, critical_keys.
  destruct incident as [| | |d].
  1-3: (cbn; split; [split; [done|]; by intros (d & r & [=] & _)|];
        split; [done|]; intros e [= <-]; cbn; split; [auto|lia]).
  cbn [getitem].
  destruct (d !! "id") as [x1|] eqn:E1; cycle 1.
  { cbn. split; [split; [done|]|].
    - intros (d' & r & [= <-] & Hall & _).
      apply Forall_cons in Hall as [[? H] _]. congruence.
    - split; [done|]. intros e [= <-]. cbn. split; [auto|lia]. }
  destruct (d !! "title") as [x2|] eqn:E2; cycle 1.
  { cbn. split; [split; [done|]|].
    - intros (d' & r & [= <-] & Hall & _).
      do 1 apply Forall_cons in Hall as [_ Hall].
      apply Forall_cons in Hall as [[? H] _]. congruence.
    - split; [done|]. intros e [= <-]. cbn. split; [auto|lia]. }
  destruct (d !! "severity") as [x3|] eqn:E3; cycle 1.
  { cbn. split; [split; [done|]|].
    - intros (d' & r & [= <-] & Hall & _).
      do 2 apply Forall_cons in Hall as [_ Hall].
      apply Forall_cons in Hall as [[? H] _]. congruence.
    - split; [done|]. intros e [= <-]. cbn. split; [auto|lia]. }
  destruct (d !! "state") as [x4|] eqn:E4; cycle 1.
  { cbn. split; [split; [done|]|].
    - intros (d' & r & [= <-] & Hall & _).
      do 3 apply Forall_cons in Hall as [_ Hall].
      apply Forall_cons in Hall as [[? H] _]. congruence.
    - split; [done|]. intros e [= <-]. cbn. split; [auto|lia]. }
  destruct (d !! "createdAt") as [x5|] eqn:E5; cycle 1.
  { cbn. split; [split; [done|]|].
    - intros (d' & r & [= <-] & Hall & _).
      do 4 apply Forall_cons in Hall as [_ Hall].
      apply Forall_cons in Hall as [[? H] _]. congruence.
    - split; [done|]. intros e [= <-]. cbn. split; [auto|lia]. }
  destruct (d !! "affectedResources") as [x6|] eqn:E6; cycle 1.
  { cbn. split; [split; [done|]|].
    - intros (d' & r & [= <-] & _ & H & _). congruence.
    - split; [done|]. intros e [= <-]. cbn. split; [auto|lia]. }
  destruct (join_error x6) as [ej|] eqn:Ej.
  { cbn. split; [split; [done|]|].
    - intros (d' & r & [= <-] & _ & H & Hj). congruence.
    - split; [done|]. intros e [= <-]. split; [|cbn; lia].
      right. by eapply join_error_class. }
  cbn. split; [|done]. split; [|done]. intros _.
  exists d, x6. split; [done|]. split; [|done].
  repeat (apply Forall_cons; split; [by eexists|]). apply Forall_nil. done.
Qed.

(** ** Which results a subscription accepts *)

Lemma getitem_dict_inv v k :
  (∃ d x, v = VDict d ∧ d !! k = Some x ∧ getitem v k = inr x) ∨
  (∃ e, getitem v k = inl e ∧
        (exn_class e = KeyError ∨ exn_class e = TypeError)).
Proof.
  destruct (getitem v k) as [e|x] eqn:E.
  - right. exists e. split; [done|]. by eapply getitem_error_class.
  - left. apply getitem_dict_Some in E as (d & -> & H). by exists d, x.
Qed.


(** The exception a coroutine raises on a result it does not accept is a
    KeyError or a TypeError. *)
Lemma on_result_error_class (h1 h2 h3 : Handler) i result e :
  on_result (task h1 h2 h3 i) result = inl e →
  exn_class e = KeyError ∨ exn_class e = TypeError.
Proof.
  destruct i; cbn;
    repeat (match goal with
            | |- context [getitem ?a ?b] =>
                let E := fresh "E" in
                destruct (getitem a b) eqn:E;
                [intros [= <-]; by eapply getitem_error_class|]
            end);
    discriminate.
Qed.

Lemma loop_body_stopped co self calls result :
  running self = false →
  (loop_body co self calls result).1 ≠ Iterating.
Proof.
  intros Hr. unfold loop_body.
  destruct (on_result co result) as [e|[line payload]].
  - unfold except_Exception. by destruct (isinstance_Exception e).
  - destruct (handler co calls payload) as [|e|]; [| |done].
    + by rewrite Hr.
    + unfold except_Exception. by destruct (isinstance_Exception e).
Qed.

Section MoreRuns.

Variables handle_critical_incident handle_incident_update
          handle_new_incident : Handler.

Local Abbreviation task := (task handle_critical_incident
                              handle_incident_update handle_new_incident).
Local Abbreviation resume_task :=
  (resume_task handle_critical_incident handle_incident_update
               handle_new_incident).
Local Abbreviation step := (step handle_critical_incident
                              handle_incident_update handle_new_incident).
Local Abbreviation run := (run handle_critical_incident
                             handle_incident_update handle_new_incident).

Lemma monitor_step c ev :
  monitor (step c ev) =
    if is_signal ev then IncidentMonitor.set_running false (monitor c)
    else monitor c.
Proof.
  destruct ev as [i r| |t]; cbn [is_signal]; [|done|done].
  change (step c (Resume i r)) with (resume_task i r c).
  destruct (blocked c) eqn:Hb.
  - by rewrite resume_task_blocked.
  - by destruct (resume_task_unblocked handle_critical_incident
                   handle_incident_update handle_new_incident i r c Hb)
      as (p & out & fin & _ & _ & _ & Hm & _).
Qed.

(** X4.  The running flag is cleared by the first signal and by nothing else,
    and nothing sets it again: after a schedule it is what it was, unless
    the schedule holds a signal, and then it is False. *)
Theorem running_until_first_signal (c : config) (evs : list event) :
  running (monitor (run c evs)) =
    running (monitor c) && forallb (fun ev => negb (is_signal ev)) evs.
Proof.
  revert c. induction evs as [|ev evs IH]; intros c.
  { cbn. by rewrite andb_true_r. }
  rewrite run_cons, IH, monitor_step. cbn [forallb].
  destruct (is_signal ev); cbn; [by rewrite andb_false_r|done].
Qed.

(** X2.  A result the coroutine does not accept ends the subscription: the
    KeyError or TypeError is caught, the session is closed, the error line
    is logged, and the handler is not called with that result or any later
    one. *)
Theorem malformed_result_ends_subscription
    (c : config) (i : sub_id) (result : value) :
  phase_of c i = Iterating →
  blocked c = false →
  payload_of (task i) result = None →
  let c' := step c (Resume i (Yielded result)) in
  phase_of c' i = Returned ∧
  (∃ e, (exn_class e = KeyError ∨ exn_class e = TypeError) ∧
        actions_of i (trace c') =
          actions_of i (trace c)
          ++ [Close; Log ERROR (error_fmt (task i)) [AExn e]]) ∧
  ∀ evs, calls_of i (trace (run c' evs)) = calls_of i (trace c).
Proof.
  intros Hph Hb Hpay c'.
  pose proof (resume_task_phase handle_critical_incident
                handle_incident_update handle_new_incident
                i (Yielded result) c Hb) as Hp.
  pose proof (resume_task_actions handle_critical_incident
                handle_incident_update handle_new_incident
                i (Yielded result) c Hb) as Ha.
  pose proof (resume_task_calls handle_critical_incident
                handle_incident_update handle_new_incident
                i (Yielded result) c Hb) as Hc.
  pose proof (terminal_run handle_critical_incident handle_incident_update
                handle_new_incident i (resume_task i (Yielded result) c))
    as Ht.
  change (resume_task i (Yielded result) c) with c' in Hp, Ha, Hc, Ht.
  clearbody c'.
  rewrite Hph in Hp, Ha, Hc. rewrite Hpay in Hc. rewrite app_nil_r in Hc.
  unfold payload_of in Hpay. cbn in Hp, Ha. unfold loop_body in Hp, Ha.
  destruct (on_result (task i) result) as [e|[line payload]] eqn:Hres;
    [|done].
  pose proof (on_result_error_class _ _ _ _ _ _ Hres) as Hcls.
  assert (He : isinstance_Exception e = true).
  { unfold isinstance_Exception. by destruct Hcls as [-> | ->]. }
  rewrite (except_Exception_caught _ _ He) in Hp, Ha. cbn in Hp, Ha.
  split; [done|]. split; [by exists e|].
  intros evs. destruct (Ht evs) as (_ & _ & ->); [by rewrite Hp|done].
Qed.

(** X3.  When the server completes the stream, the coroutine closes its session
    and returns without logging an error; this holds just as well for a
    stream that completes before any result.  It stays returned, and the
    handler receives nothing more. *)
Theorem completed_stream_returns_quietly (c : config) (i : sub_id) :
  phase_of c i = Iterating →
  blocked c = false →
  let c' := step c (Resume i Exhausted) in
  actions_of i (trace c') = actions_of i (trace c) ++ [Close] ∧
  ∀ evs,
    phase_of (run c' evs) i = Returned ∧
    actions_of i (trace (run c' evs)) = actions_of i (trace c') ∧
    calls_of i (trace (run c' evs)) = calls_of i (trace c).
Proof.
  intros Hph Hb c'.
  pose proof (resume_task_phase handle_critical_incident
                handle_incident_update handle_new_incident
                i Exhausted c Hb) as Hp.
  pose proof (resume_task_actions handle_critical_incident
                handle_incident_update handle_new_incident
                i Exhausted c Hb) as Ha.
  pose proof (resume_task_calls handle_critical_incident
                handle_incident_update handle_new_incident
                i Exhausted c Hb) as Hc.
  pose proof (terminal_run handle_critical_incident handle_incident_update
                handle_new_incident i (resume_task i Exhausted c)) as Ht.
  change (resume_task i Exhausted c) with c' in Hp, Ha, Hc, Ht.
  clearbody c'.
  rewrite Hph in Hp, Ha, Hc. cbn in Hp, Ha. rewrite app_nil_r in Hc.
  split; [done|]. intros evs.
  destruct (Ht evs) as (-> & -> & ->); [by rewrite Hp|]. by rewrite Hp, Hc.
Qed.

(** X5.  Once the monitor is not running (after [stop], or on a monitor whose
    [running] was never set, as [__init__] leaves it), a subscription hands
    at most one more result to its handler, whatever arrives. *)
Theorem at_most_one_call_when_not_running
    (c : config) (i : sub_id) (evs : list event) :
  running (monitor c) = false →
  length (calls_of i (trace (run c evs)))
    ≤ S (length (calls_of i (trace c))).
Proof.
  revert c. induction evs as [|ev evs IH]; intros c Hr; [cbn; lia|].
  rewrite run_cons.
  assert (Hr1 : running (monitor (step c ev)) = false).
  { rewrite monitor_step. destruct (is_signal ev); [done|exact Hr]. }
  specialize (IH _ Hr1).
  destruct (decide (not_for i ev)) as [Hnf|Hnf].
  { destruct (step_not_for handle_critical_incident handle_incident_update
                handle_new_incident i c ev Hnf) as (_ & _ & Hc).
    by rewrite Hc in IH. }
  destruct ev as [j r| |t]; [|by destruct Hnf|by destruct Hnf].
  assert (j = i) as -> by (destruct (decide (j = i)); [done|by destruct Hnf]).
  change (step c (Resume i r)) with (resume_task i r c) in *.
  destruct (blocked c) eqn:Hb.
  { rewrite resume_task_blocked in * by done. exact IH. }
  pose proof (resume_task_calls handle_critical_incident
                handle_incident_update handle_new_incident i r c Hb) as Hc.
  pose proof (resume_task_phase handle_critical_incident
                handle_incident_update handle_new_incident i r c Hb) as Hp.
  destruct (phase_of c i) eqn:Hph;
    try (rewrite app_nil_r in Hc; by rewrite Hc in IH).
  destruct r as [| | |result| |];
    try (rewrite app_nil_r in Hc; by rewrite Hc in IH).
  (* a result arrives while the monitor is not running *)
  pose proof (resume_iterating_next (task i) (monitor c)
                (calls_of i (trace c)) (Yielded result)) as Hnext.
  cbn zeta in Hnext. rewrite <- Hp in Hnext.
  destruct Hnext as [Hit|Hquiet].
  { exfalso. rewrite Hit in Hp. symmetry in Hp. cbn in Hp.
    by apply loop_body_stopped in Hp. }
  rewrite (quiet_run handle_critical_incident handle_incident_update
             handle_new_incident) by tauto.
  rewrite Hc, length_app.
  destruct (payload_of (task i) result); cbn; lia.
Qed.

End MoreRuns.

(** ** Sessions, the final line and the results of the gather *)

Lemma except_Exception_session co e :
  terminal (except_Exception co e).1 = true ∧
  List.filter is_subscribe (except_Exception co e).2 = [] ∧
  List.filter is_close (except_Exception co e).2 = [].
Proof. unfold except_Exception. by destruct (isinstance_Exception e). Qed.

Lemma session_ok_terminal p s c :
  terminal p = true → c = s → s ≤ 1 → session_ok p s c.
Proof. by destruct p. Qed.

Lemma resume_session_ok co self calls p r s c :
  logs_lines co →
  session_ok p s c →
  session_ok (resume co self calls p r).1
    (s + length (List.filter is_subscribe (resume co self calls p r).2))
    (c + length (List.filter is_close (resume co self calls p r).2)).
Proof.
  intros [Hstart Hco] Hok.
  destruct p, r; cbn in Hok |- *; try (destruct Hok; split; lia).
  - destruct (start_line co); try discriminate. cbn. lia.
  - destruct Hok as [-> ->].
    destruct (except_Exception_session co e) as (Ht & Hs & Hc).
    rewrite Hs, Hc. apply session_ok_terminal; [done|cbn; lia|cbn; lia].
  - destruct Hok as [-> ->]. unfold loop_body.
    destruct (on_result co result) as [e|[line payload]] eqn:Hres.
    + destruct (except_Exception_session co e) as (Ht & Hs & Hc).
      destruct (except_Exception co e) as [p' out']. cbn in *.
      rewrite Hs, Hc. apply session_ok_terminal; [done|cbn; lia|cbn; lia].
    + specialize (Hco _ _ _ Hres). destruct line; try discriminate.
      destruct (handler co calls payload) as [|e|]; cbn.
      * destruct (running self); cbn; lia.
      * destruct (except_Exception_session co e) as (Ht & Hs & Hc).
        destruct (except_Exception co e) as [p' out']. cbn in *.
        rewrite Hs, Hc.
        apply session_ok_terminal; [done|cbn; lia|cbn; lia].
      * lia.
  - destruct Hok as [-> ->].
    destruct (except_Exception_session co e) as (Ht & Hs & Hc).
    destruct (except_Exception co e) as [p' out']. cbn in *.
    rewrite Hs, Hc. apply session_ok_terminal; [done|cbn; lia|cbn; lia].
Qed.

Lemma resume_propagated co self calls p r e :
  (resume co self calls p r).1 = Propagated e →
  p = Propagated e ∨
  (isinstance_Exception e = false ∧ raised co calls p r = Some e).
Proof.
  assert (Hex : ∀ e', (except_Exception co e').1 = Propagated e →
                      isinstance_Exception e = false ∧ e' = e).
  { intros e'. unfold except_Exception.
    destruct (isinstance_Exception e') eqn:E; [done|].
    cbn. intros [= <-]. done. }
  destruct p, r; cbn; try discriminate; auto.
  - intros H. apply Hex in H as [H ->]. auto.
  - unfold loop_body.
    destruct (on_result co result) as [e'|[line payload]].
    + destruct (except_Exception co e') as [p' out'] eqn:E. cbn.
      intros ->. specialize (Hex e'). rewrite E in Hex.
      destruct (Hex eq_refl) as [H ->]. auto.
    + destruct (handler co calls payload) as [|e'|]; [| |done].
      * by destruct (running self).
      * destruct (except_Exception co e') as [p' out'] eqn:E. cbn.
        intros ->. specialize (Hex e'). rewrite E in Hex.
        destruct (Hex eq_refl) as [H ->]. auto.
  - destruct (except_Exception co e0) as [p' out'] eqn:E. cbn.
    intros ->. specialize (Hex e0). rewrite E in Hex.
    destruct (Hex eq_refl) as [H ->]. auto.
Qed.

Lemma resume_task_eq (h1 h2 h3 : Handler) i r c :
  resume_task h1 h2 h3 i r c =
    if blocked c then c
    else
      let po := resume (task h1 h2 h3 i) (monitor c) (calls_of i (trace c))
                  (phase_of c i) r in
      let c' := emit (Task i) po.2 (set_phase i po.1 c) in
      if negb (gather_done c) && gather_done c'
      then emit Main [Log INFO "Incident monitor stopped" []] c'
      else c'.
Proof.
  unfold resume_task. destruct (blocked c); [done|].
  by destruct (resume _ _ _ _ _).
Qed.

Section Invariants.

Variables handle_critical_incident handle_incident_update
          handle_new_incident : Handler.

Local Abbreviation task := (task handle_critical_incident
                              handle_incident_update handle_new_incident).
Local Abbreviation resume_task :=
  (resume_task handle_critical_incident handle_incident_update
               handle_new_incident).
Local Abbreviation step := (step handle_critical_incident
                              handle_incident_update handle_new_incident).
Local Abbreviation run := (run handle_critical_incident
                             handle_incident_update handle_new_incident).

Lemma session_ok_step c ev :
  (∀ i, session_ok (phase_of c i) (subscribes_by i (trace c))
          (closes_by i (trace c))) →
  ∀ i, session_ok (phase_of (step c ev) i)
         (subscribes_by i (trace (step c ev)))
         (closes_by i (trace (step c ev))).
Proof.
  intros Hinv i.
  destruct (decide (not_for i ev)) as [Hnf|Hnf].
  { destruct (step_not_for handle_critical_incident handle_incident_update
                handle_new_incident i c ev Hnf) as (Hp & Ha & _).
    unfold subscribes_by, closes_by. rewrite Hp, Ha. apply Hinv. }
  destruct ev as [j r| |t]; [|by destruct Hnf|by destruct Hnf].
  assert (j = i) as -> by (destruct (decide (j = i)); [done|by destruct Hnf]).
  change (step c (Resume i r)) with (resume_task i r c).
  destruct (blocked c) eqn:Hb.
  { rewrite resume_task_blocked by done. apply Hinv. }
  rewrite (resume_task_phase handle_critical_incident
             handle_incident_update handle_new_incident) by done.
  unfold subscribes_by, closes_by.
  rewrite (resume_task_actions handle_critical_incident
             handle_incident_update handle_new_incident) by done.
  rewrite !List.filter_app, !length_app.
  apply resume_session_ok; [apply task_logs_lines|apply Hinv].
Qed.

(** X6.  Every session that was opened is closed exactly once, when its
    coroutine ends, and no coroutine closes a session it did not open: in
    every state of the program a subscription has made at most one
    subscribe and no more closes than subscribes, none while it is still
    running, and exactly as many once it has ended.  A subscription whose
    connection was refused ends without a close. *)
Theorem sessions_are_closed_once
    (environ : gmap string string) (evs : list event) (i : sub_id) :
  let c := run (main environ) evs in
  closes_by i (trace c) ≤ subscribes_by i (trace c) ∧
  subscribes_by i (trace c) ≤ 1 ∧
  closes_by i (trace c)
    = (if terminal (phase_of c i) then subscribes_by i (trace c) else 0).
Proof.
  intros c.
  assert (H : ∀ c0, (∀ j, session_ok (phase_of c0 j)
                            (subscribes_by j (trace c0))
                            (closes_by j (trace c0))) →
                    ∀ j, session_ok (phase_of (run c0 evs) j)
                           (subscribes_by j (trace (run c0 evs)))
                           (closes_by j (trace (run c0 evs)))).
  { induction evs as [|ev evs' IH]; intros c0 H0; [done|].
    rewrite run_cons. apply IH. by apply session_ok_step. }
  specialize (H (main environ)).
  assert (H0 : ∀ j, session_ok (phase_of (main environ) j)
                      (subscribes_by j (trace (main environ)))
                      (closes_by j (trace (main environ)))).
  { by intros []. }
  specialize (H H0 i). fold c in H.
  destruct (phase_of c i); cbn in H |- *; lia.
Qed.

Lemma stopped_lines_task j (out : list effect) :
  List.filter is_stopped_line ((fun e => (Task j, e)) <$> out) = [].
Proof. induction out as [|e out IH]; [done|]. exact IH. Qed.

Lemma gather_done_resume i r c :
  gather_done c = true →
  gather_done
    (set_phase i (resume (task i) (monitor c) (calls_of i (trace c))
                    (phase_of c i) r).1 c) = true.
Proof.
  unfold gather_done. intros H.
  apply andb_prop in H as [H H3]. apply andb_prop in H as [H1 H2].
  destruct i; cbn [phase_of set_phase critical updates new_incidents];
    rewrite resume_terminal by done; cbn; by rewrite ?H1, ?H2, ?H3.
Qed.

Lemma stopped_lines_step c ev :
  length (List.filter is_stopped_line (trace c)) = b2n (gather_done c) →
  length (List.filter is_stopped_line (trace (step c ev)))
    = b2n (gather_done (step c ev)).
Proof.
  intros Hinv. destruct ev as [i r| |t]; [| |done].
  - change (step c (Resume i r)) with (resume_task i r c).
    rewrite resume_task_eq.
    destruct (blocked c); [done|].
    pose proof (gather_done_resume i r c) as Hmono.
    destruct (resume _ _ _ _ _) as [p out]. cbn [fst snd] in Hmono |- *.
    cbn zeta.
    assert (Hg : gather_done (emit (Task i) out (set_phase i p c))
                 = gather_done (set_phase i p c)) by done.
    destruct (gather_done c) eqn:Hc.
    + cbn [negb andb]. rewrite Hg, Hmono by done.
      cbn [emit trace]. rewrite List.filter_app, length_app.
      rewrite stopped_lines_task.
      replace (trace (set_phase i p c)) with (trace c) by (by destruct i).
      rewrite Hinv. done.
    + cbn [negb andb]. rewrite Hg.
      destruct (gather_done (set_phase i p c)) eqn:Hc'.
      * cbn [emit trace].
        rewrite !List.filter_app, !length_app, stopped_lines_task.
        replace (trace (set_phase i p c)) with (trace c) by (by destruct i).
        rewrite Hinv. cbn.
        change (gather_done (emit Main _ (emit (Task i) out
                                            (set_phase i p c))))
          with (gather_done (set_phase i p c)).
        by rewrite Hc'.
      * change (gather_done (emit (Task i) out (set_phase i p c)))
          with (gather_done (set_phase i p c)).
        rewrite Hc'. cbn [emit trace].
        rewrite !List.filter_app, !length_app, stopped_lines_task.
        replace (trace (set_phase i p c)) with (trace c) by (by destruct i).
        rewrite Hinv. done.
  - change (step c Signal) with (signal_handler c).
    destruct (signal_handler_spec c) as (_ & _ & Hph & Htr).
    change (gather_done (signal_handler c)) with (gather_done c).
    rewrite Htr, List.filter_app, length_app, Hinv. cbn. lia.
Qed.

(** X7.  [main] logs its final line, Incident monitor stopped, exactly once:
    when the last of the three subscriptions has ended, and not before. *)
Theorem stopped_line_logged_once_at_the_end
    (environ : gmap string string) (evs : list event) :
  length (List.filter is_stopped_line (trace (run (main environ) evs)))
    = b2n (gather_done (run (main environ) evs)).
Proof.
  assert (H : ∀ c0,
             length (List.filter is_stopped_line (trace c0))
               = b2n (gather_done c0) →
             length (List.filter is_stopped_line (trace (run c0 evs)))
               = b2n (gather_done (run c0 evs))).
  { induction evs as [|ev evs' IH]; intros c0 H0; [done|].
    rewrite run_cons. apply IH. by apply stopped_lines_step. }
  by apply H.
Qed.

Lemma propagated_step c ev :
  (∀ i e, phase_of c i = Propagated e → isinstance_Exception e = false) →
  ∀ i e, phase_of (step c ev) i = Propagated e →
         isinstance_Exception e = false.
Proof.
  intros Hinv i e.
  destruct (decide (not_for i ev)) as [Hnf|Hnf].
  { destruct (step_not_for handle_critical_incident handle_incident_update
                handle_new_incident i c ev Hnf) as (-> & _). apply Hinv. }
  destruct ev as [j r| |t]; [|by destruct Hnf|by destruct Hnf].
  assert (j = i) as -> by (destruct (decide (j = i)); [done|by destruct Hnf]).
  change (step c (Resume i r)) with (resume_task i r c).
  destruct (blocked c) eqn:Hb.
  { rewrite resume_task_blocked by done. apply Hinv. }
  rewrite (resume_task_phase handle_critical_incident
             handle_incident_update handle_new_incident) by done.
  intros H. apply resume_propagated in H as [H|[H _]]; [|done].
  by apply (Hinv i).
Qed.

(** X8.  The gather has a result only when the three tasks have ended, one
    entry per task; an entry is None for a task that returned, and an
    exception in the list is never an instance of Exception: those were
    caught and logged by the coroutine itself. *)
Theorem gather_results_hold_no_Exception
    (environ : gmap string string) (evs : list event)
    (results : list (option exn)) :
  gather (run (main environ) evs) = Some results →
  length results = 3 ∧
  gather_done (run (main environ) evs) = true ∧
  ∀ e, Some e ∈ results → isinstance_Exception e = false.
Proof.
  assert (H : ∀ c0,
             (∀ i e, phase_of c0 i = Propagated e →
                     isinstance_Exception e = false) →
             ∀ i e, phase_of (run c0 evs) i = Propagated e →
                    isinstance_Exception e = false).
  { induction evs as [|ev evs' IH]; intros c0 H0; [done|].
    rewrite run_cons. apply IH. by apply propagated_step. }
  specialize (H (main environ)).
  assert (H0 : ∀ i e, phase_of (main environ) i = Propagated e →
                      isinstance_Exception e = false) by (by intros []).
  specialize (H H0). clear H0.
  set (c := run (main environ) evs) in *. clearbody c.
  unfold gather, gather_done.
  pose proof (H Critical) as H1. pose proof (H Updates) as H2.
  pose proof (H NewIncidents) as H3. cbn in H1, H2, H3.
  destruct (critical c) as [| | | | |e1]; try done;
    destruct (updates c) as [| | | | |e2]; try done;
    destruct (new_incidents c) as [| | | | |e3]; try done;
    cbn; repeat (destruct (stops_event_loop _); cbn);
    try done; intros [= <-]; (split; [done|]); (split; [done|]);
    intros e He; apply list_elem_of_In in He; cbn in He;
    destruct He as [He|[He|[He|[]]]]; try discriminate He;
    injection He as <-; auto.
Qed.

End Invariants.

(** ** Runs in which no handler stalls *)

Section Unstalled.

Variables handle_critical_incident handle_incident_update
          handle_new_incident : Handler.

Local Abbreviation task := (task handle_critical_incident
                              handle_incident_update handle_new_incident).
Local Abbreviation resume_task :=
  (resume_task handle_critical_incident handle_incident_update
               handle_new_incident).
Local Abbreviation step := (step handle_critical_incident
                              handle_incident_update handle_new_incident).
Local Abbreviation run := (run handle_critical_incident
                             handle_incident_update handle_new_incident).

(** No handler holds the event loop: each call returns or raises. *)
Hypothesis no_stall :
  ∀ j cs payload, handler (task j) cs payload ≠ NeverReturns.

Lemma step_unblocked c ev :
  blocked c = false → blocked (step c ev) = false.
Proof.
  intros Hb. apply blocked_false. intros k.
  destruct ev as [j r| |t].
  - change (step c (Resume j r)) with (resume_task j r c).
    destruct (resume_task_unblocked handle_critical_incident
                handle_incident_update handle_new_incident j r c Hb)
      as (p & out & fin & Hres & _ & Hp & _).
    rewrite Hp. destruct (decide (j = k)) as [->|Hne].
    + replace p with
        (resume (task k) (monitor c) (calls_of k (trace c))
                (phase_of c k) r).1 by (by rewrite Hres).
      apply resume_no_stall; [apply no_stall|]. by apply blocked_false.
    + by apply blocked_false.
  - destruct (step_not_for handle_critical_incident handle_incident_update
                handle_new_incident k c Signal I) as (-> & _).
    by apply blocked_false.
  - destruct (step_not_for handle_critical_incident handle_incident_update
                handle_new_incident k c (TokenRefreshed t) I) as (-> & _).
    by apply blocked_false.
Qed.

Lemma run_unblocked c evs :
  blocked c = false → blocked (run c evs) = false.
Proof.
  revert c. induction evs as [|ev evs IH]; intros c Hb; [done|].
  rewrite run_cons. apply IH. by apply step_unblocked.
Qed.

End Unstalled.

(** ** The program with its own handlers *)

Lemma handler_of_no_stall f cs payload :
  handler_of f cs payload ≠ NeverReturns.
Proof. unfold handler_of. by destruct (f payload).2. Qed.

Lemma program_task_handler i :
  handler (program_task i) = handler_of (notify i).
Proof. by destruct i. Qed.

Lemma program_no_stall j cs payload :
  handler (program_task j) cs payload ≠ NeverReturns.
Proof. rewrite program_task_handler. apply handler_of_no_stall. Qed.

Lemma run_prints_one_error (s : exn + printed) e :
  (run_prints [s]).2 = Some e → s = inl e.
Proof. destruct s as [e'|l]; cbn; [by intros [= ->]|done]. Qed.

Lemma notify_error_class i payload e :
  (notify i payload).2 = Some e →
  exn_class e = KeyError ∨ exn_class e = TypeError.
Proof.
  destruct i; cbn [notify].
  - unfold handle_critical_incident, print_field. cbn [run_prints].
    repeat (match goal with
            | |- context [getitem ?a ?b] =>
                let E := fresh "E" in
                destruct (getitem a b) eqn:E;
                [cbn; intros [= <-]; by eapply getitem_error_class|]
            end).
    destruct (join_error _) as [ej|] eqn:Ej; cbn; [|done].
    intros [= <-]. right. by eapply join_error_class.
  - unfold handle_incident_update. intros H.
    apply run_prints_one_error in H.
    repeat (match type of H with
            | context [getitem ?a ?b] =>
                let E := fresh "E" in
                destruct (getitem a b) eqn:E;
                [injection H as <-; by eapply getitem_error_class|]
            end).
    discriminate.
  - unfold handle_new_incident. intros H.
    apply run_prints_one_error in H.
    repeat (match type of H with
            | context [getitem ?a ?b] =>
                let E := fresh "E" in
                destruct (getitem a b) eqn:E;
                [injection H as <-; by eapply getitem_error_class|]
            end).
    discriminate.
Qed.

Lemma program_cons c ev evs :
  program c (ev :: evs)
  = program (step (handler_of handle_critical_incident)
               (handler_of handle_incident_update)
               (handler_of handle_new_incident) c ev) evs.
Proof. done. Qed.

Lemma program_snoc c evs ev :
  program c (evs ++ [ev])
  = step (handler_of handle_critical_incident)
      (handler_of handle_incident_update)
      (handler_of handle_new_incident) (program c evs) ev.
Proof. unfold program, run. by rewrite foldl_app. Qed.

Lemma session_raises_app i evs1 evs2 :
  session_raises i (evs1 ++ evs2)
  = session_raises i evs1 ++ session_raises i evs2.
Proof. unfold session_raises. apply omap_app. Qed.

(** X15.  With the handlers that [main] attaches, the event loop is never held by
    a handler, and a subscription task ends by raising only an exception
    that its session raised (the connection or the stream) and that is not
    an instance of Exception: whatever a notification function raises is
    caught by the coroutine. *)
Theorem program_handlers_never_escape
    (environ : gmap string string) (evs : list event) :
  blocked (program (main environ) evs) = false ∧
  ∀ i e, phase_of (program (main environ) evs) i = Propagated e →
         isinstance_Exception e = false ∧ e ∈ session_raises i evs.
Proof.
  assert (Hb : ∀ evs', blocked (program (main environ) evs') = false).
  { intros evs'. apply run_unblocked; [|done].
    intros j cs payload. apply program_no_stall. }
  split; [apply Hb|].
  induction evs as [|ev evs IH] using rev_ind; [by intros []|].
  intros i e. rewrite program_snoc, session_raises_app.
  destruct (decide (not_for i ev)) as [Hnf|Hnf].
  { destruct (step_not_for (handler_of handle_critical_incident)
                (handler_of handle_incident_update)
                (handler_of handle_new_incident)
                i (program (main environ) evs) ev Hnf) as (-> & _).
    intros H. destruct (IH i e H) as [H1 H2]. split; [done|].
    apply elem_of_app. by left. }
  destruct ev as [j r| |t]; [|by destruct Hnf|by destruct Hnf].
  assert (j = i) as -> by (destruct (decide (j = i)); [done|by destruct Hnf]).
  change (step _ _ _ ?c (Resume i r))
    with (resume_task (handler_of handle_critical_incident)
            (handler_of handle_incident_update)
            (handler_of handle_new_incident) i r c).
  rewrite resume_task_phase by apply Hb.
  intros H. apply resume_propagated in H as [H|[He Hr]].
  { destruct (IH i e H) as [H1 H2]. split; [done|].
    apply elem_of_app. by left. }
  split; [done|]. apply elem_of_app. right.
  destruct (phase_of (program (main environ) evs) i), r;
    try discriminate Hr; cbn in Hr.
  - injection Hr as ->. cbn. rewrite decide_True by done.
    by apply list_elem_of_singleton.
  - exfalso.
    destruct (on_result _ result) as [e'|[line payload]] eqn:Hres.
    + injection Hr as ->.
      apply on_result_error_class in Hres.
      unfold isinstance_Exception in He. by destruct Hres as [E|E];
        rewrite E in He.
    + fold (program_task i) in Hr. rewrite program_task_handler in Hr.
      unfold handler_of in Hr.
      destruct (notify i payload).2 as [e'|] eqn:Hn; [|done].
      injection Hr as ->. apply notify_error_class in Hn.
      unfold isinstance_Exception in He. by destruct Hn as [E|E];
        rewrite E in He.
  - injection Hr as ->. cbn. rewrite decide_True by done.
    by apply list_elem_of_singleton.
Qed.

(** X16.  With the handlers that [main] attaches and the monitor running, a
    subscription goes on after a result exactly when the coroutine accepts
    the result and the notification function returns on its payload; in
    every other case the subscription has returned. *)
Theorem program_survives_result
    (c : config) (i : sub_id) (result : value) :
  phase_of c i = Iterating →
  blocked c = false →
  running (monitor c) = true →
  (phase_of (program c [Resume i (Yielded result)]) i = Iterating ↔
   ∃ payload, payload_of (program_task i) result = Some payload ∧
              (notify i payload).2 = None) ∧
  (phase_of (program c [Resume i (Yielded result)]) i = Iterating ∨
   phase_of (program c [Resume i (Yielded result)]) i = Returned).
Proof.
  intros Hph Hb Hrun.
  change (program c [Resume i (Yielded result)])
    with (resume_task (handler_of handle_critical_incident)
            (handler_of handle_incident_update)
            (handler_of handle_new_incident) i (Yielded result) c).
  rewrite resume_task_phase by done. rewrite Hph. cbn [resume].
  fold (program_task i). unfold loop_body, payload_of.
  destruct (on_result (program_task i) result) as [e|[line payload]]
    eqn:Hres.
  - apply on_result_error_class in Hres.
    assert (He : isinstance_Exception e = true).
    { unfold isinstance_Exception. by destruct Hres as [-> | ->]. }
    rewrite (except_Exception_caught _ _ He). cbn.
    split; [|by right]. split; [done|]. by intros (? & [=] & _).
  - rewrite program_task_handler. unfold handler_of.
    destruct (notify i payload).2 as [e|] eqn:Hn.
    + apply notify_error_class in Hn as Hcls.
      assert (He : isinstance_Exception e = true).
      { unfold isinstance_Exception. by destruct Hcls as [-> | ->]. }
      rewrite (except_Exception_caught _ _ He). cbn.
      split; [|by right]. split; [done|].
      intros (p' & [= <-] & Hn'). congruence.
    + rewrite Hrun. cbn. split; [|by left]. split; [|done].
      intros _. by exists payload.
Qed.

(** ** Error lines *)

Lemma error_lines_app a b :
  error_lines (a ++ b) = error_lines a ++ error_lines b.
Proof. unfold error_lines. apply List.filter_app. Qed.

Lemma task_info_lines (h1 h2 h3 : Handler) i : info_lines (task h1 h2 h3 i).
Proof.
  split; [by destruct i|].
  intros result line payload. destruct i; cbn;
    repeat (match goal with
            | |- context [getitem ?a ?b] => destruct (getitem a b)
            end; try discriminate);
    by intros [= <- <-].
Qed.

Lemma except_Exception_errors co e :
  errors_ok (error_fmt co) (except_Exception co e).1
    (except_Exception co e).2.
Proof.
  unfold except_Exception. destruct (isinstance_Exception e).
  - right. split; [done|]. by exists [], e.
  - by left.
Qed.

Lemma errors_ok_prefix fmt p pre acts :
  error_lines pre = [] → errors_ok fmt p acts → errors_ok fmt p (pre ++ acts).
Proof.
  intros Hpre [H|(-> & pre' & e & -> & H)].
  - left. by rewrite error_lines_app, Hpre, H.
  - right. split; [done|]. exists (pre ++ pre'), e.
    split; [by rewrite (assoc_L (++))|].
    by rewrite error_lines_app, Hpre, H.
Qed.

Lemma resume_errors co self calls p r :
  info_lines co →
  errors_ok (error_fmt co) (resume co self calls p r).1
    (resume co self calls p r).2.
Proof.
  intros [Hstart Hco].
  destruct p, r; cbn; try (by left).
  - left. destruct (start_line co) as [[] ? ?| | | |]; done.
  - apply except_Exception_errors.
  - unfold loop_body.
    destruct (on_result co result) as [e|[line payload]] eqn:Hres.
    + pose proof (except_Exception_errors co e) as H.
      destruct (except_Exception co e) as [p' out']. cbn in *.
      by apply (errors_ok_prefix _ _ [Close]).
    + specialize (Hco _ _ _ Hres).
      destruct line as [[] ? ?| | | |]; try discriminate.
      destruct (handler co calls payload) as [|e|]; cbn.
      * left. by destruct (running self).
      * pose proof (except_Exception_errors co e) as H.
        destruct (except_Exception co e) as [p' out']. cbn in *.
        by apply (errors_ok_prefix _ _ [_; _; _]).
      * by left.
  - pose proof (except_Exception_errors co e) as H.
    destruct (except_Exception co e) as [p' out']. cbn in *.
    by apply (errors_ok_prefix _ _ [Close]).
Qed.

Section ErrorLines.

Variables handle_critical_incident handle_incident_update
          handle_new_incident : Handler.

Local Abbreviation task := (task handle_critical_incident
                              handle_incident_update handle_new_incident).
Local Abbreviation resume_task :=
  (resume_task handle_critical_incident handle_incident_update
               handle_new_incident).
Local Abbreviation step := (step handle_critical_incident
                              handle_incident_update handle_new_incident).
Local Abbreviation run := (run handle_critical_incident
                             handle_incident_update handle_new_incident).

Lemma errors_ok_step c ev :
  (∀ i, errors_ok (error_fmt (task i)) (phase_of c i)
          (actions_of i (trace c))) →
  ∀ i, errors_ok (error_fmt (task i)) (phase_of (step c ev) i)
         (actions_of i (trace (step c ev))).
Proof.
  intros Hinv i.
  destruct (decide (not_for i ev)) as [Hnf|Hnf].
  { destruct (step_not_for handle_critical_incident handle_incident_update
                handle_new_incident i c ev Hnf) as (-> & -> & _).
    apply Hinv. }
  destruct ev as [j r| |t]; [|by destruct Hnf|by destruct Hnf].
  assert (j = i) as -> by (destruct (decide (j = i)); [done|by destruct Hnf]).
  change (step c (Resume i r)) with (resume_task i r c).
  destruct (blocked c) eqn:Hb.
  { rewrite resume_task_blocked by done. apply Hinv. }
  rewrite (resume_task_phase handle_critical_incident
             handle_incident_update handle_new_incident) by done.
  rewrite (resume_task_actions handle_critical_incident
             handle_incident_update handle_new_incident) by done.
  destruct (Hinv i) as [Hnone|(Hret & _)].
  - apply errors_ok_prefix; [done|].
    apply resume_errors, task_info_lines.
  - rewrite Hret, resume_terminal by done. cbn. rewrite app_nil_r.
    rewrite <- Hret. apply Hinv.
Qed.

(** X9.  A subscription logs at most one error line, and when it has logged
    one it has returned and that line is the last thing it did: nothing is
    retried, closed or delivered after the error is logged. *)
Theorem one_error_line_and_it_is_last
    (environ : gmap string string) (evs : list event) (i : sub_id) :
  let c := run (main environ) evs in
  length (error_lines (actions_of i (trace c))) ≤ 1 ∧
  (error_lines (actions_of i (trace c)) ≠ [] →
   phase_of c i = Returned ∧
   ∃ e, last (actions_of i (trace c))
        = Some (Log ERROR (error_fmt (task i)) [AExn e])).
Proof.
  intros c.
  assert (H : ∀ c0, (∀ j, errors_ok (error_fmt (task j)) (phase_of c0 j)
                            (actions_of j (trace c0))) →
                    ∀ j, errors_ok (error_fmt (task j))
                           (phase_of (run c0 evs) j)
                           (actions_of j (trace (run c0 evs)))).
  { induction evs as [|ev evs' IH]; intros c0 H0; [done|].
    rewrite run_cons. apply IH. by apply errors_ok_step. }
  specialize (H (main environ)).
  assert (H0 : ∀ j, errors_ok (error_fmt (task j)) (phase_of (main environ) j)
                      (actions_of j (trace (main environ)))).
  { intros j. left. by destruct j. }
  specialize (H H0 i). fold c in H.
  destruct H as [Hnone|(Hret & pre & e & Hacts & Hpre)].
  - rewrite Hnone. split; [cbn; lia|done].
  - rewrite Hacts, error_lines_app, Hpre. cbn. split; [lia|].
    intros _. split; [done|]. exists e. by rewrite last_snoc.
Qed.

End ErrorLines.

(** ** What the except clause catches *)

Section Catching.

Variables handle_critical_incident handle_incident_update
          handle_new_incident : Handler.

Local Abbreviation task := (task handle_critical_incident
                              handle_incident_update handle_new_incident).
Local Abbreviation resume_task :=
  (resume_task handle_critical_incident handle_incident_update
               handle_new_incident).
Local Abbreviation step := (step handle_critical_incident
                              handle_incident_update handle_new_incident).


End Catching.

(** ** The further theorems at concrete inputs *)


(** A critical incident with an id and no title: the header and the id
    line are printed, then KeyError title. *)
Lemma handle_critical_incident_first_missing_key_witness :
  (handle_critical_incident (VDict {[ "id" := VStr "INC-1" ]})).2
    = Some (Exn KeyError "title") ∧
  length (handle_critical_incident (VDict {[ "id" := VStr "INC-1" ]})).1 = 4.
Proof.
  apply (handle_critical_incident_first_missing_key
           {[ "id" := VStr "INC-1" ]} 1 "title").
  - reflexivity.
  - vm_compute. reflexivity.
  - intros k' Hk'. apply list_elem_of_singleton in Hk' as ->.
    exists (VStr "INC-1"). vm_compute. reflexivity.
Defined.

(** A result without the criticalIncidents field. *)
Lemma malformed_result_ends_subscription_witness :
  phase_of (step returning_handler returning_handler returning_handler
              critical_open (Resume Critical (Yielded (VDict ∅))))
           Critical = Returned.
Proof.
  refine (proj1 (malformed_result_ends_subscription
                   returning_handler returning_handler returning_handler
                   critical_open Critical (VDict ∅) _ _ _));
    vm_compute; reflexivity.
Defined.

(** The stream of the critical subscription completes before any result. *)
Lemma completed_stream_returns_quietly_witness :
  actions_of Critical
    (trace (step returning_handler returning_handler returning_handler
              critical_open (Resume Critical Exhausted)))
  = actions_of Critical (trace critical_open) ++ [Close].
Proof.
  refine (proj1 (completed_stream_returns_quietly
                   returning_handler returning_handler returning_handler
                   critical_open Critical _ _));
    vm_compute; reflexivity.
Defined.

(** A monitor fresh from [__init__], on which nobody set [running]. *)
Lemma at_most_one_call_when_not_running_witness :
  running (IncidentMonitor.__init__ "ws://localhost:8080/graphql/ws" "t") = false ∧
  length (calls_of Critical
            (trace (run_returning
                      (set_monitor
                         (IncidentMonitor.__init__
                            "ws://localhost:8080/graphql/ws" "t")
                         critical_open)
                      [Resume Critical (Yielded (critical_result "INC-1"));
                       Resume Critical (Yielded (critical_result "INC-2"))])))
  ≤ S (length (calls_of Critical
                 (trace (set_monitor
                           (IncidentMonitor.__init__
                              "ws://localhost:8080/graphql/ws" "t")
                           critical_open)))).
Proof.
  split; [reflexivity|].
  apply (at_most_one_call_when_not_running
           returning_handler returning_handler returning_handler).
  reflexivity.
Defined.

(** The three subscriptions end: one by a lost connection, one by a
    completed stream, one by cancellation. *)
Lemma gather_results_hold_no_Exception_witness :
  gather (run returning_handler returning_handler returning_handler (main ∅)
            (open_all ++
             [Resume Critical (AnextRaised connection_lost);
              Resume Updates Exhausted;
              Resume NewIncidents (AnextRaised task_cancelled)]))
    = Some [None; None; Some task_cancelled] ∧
  isinstance_Exception task_cancelled = false.
Proof.
  assert (H : gather (run returning_handler returning_handler
                        returning_handler (main ∅)
                        (open_all ++
                         [Resume Critical (AnextRaised connection_lost);
                          Resume Updates Exhausted;
                          Resume NewIncidents (AnextRaised task_cancelled)]))
              = Some [None; None; Some task_cancelled])
    by (vm_compute; reflexivity).
  split; [exact H|].
  apply (proj2 (proj2 (gather_results_hold_no_Exception
                         returning_handler returning_handler returning_handler
                         ∅
                         (open_all ++
                          [Resume Critical (AnextRaised connection_lost);
                           Resume Updates Exhausted;
                           Resume NewIncidents (AnextRaised task_cancelled)])
                         [None; None; Some task_cancelled] H))).
  apply list_elem_of_In. right. right. left. reflexivity.
Defined.

(** An update without timestamp, in the program as shipped. *)
Lemma program_survives_result_witness :
  phase_of (program (program (main ∅) open_all)
              [Resume Updates (Yielded (update_result "CREATED" "INC-2"))])
           Updates = Iterating ∨
  phase_of (program (program (main ∅) open_all)
              [Resume Updates (Yielded (update_result "CREATED" "INC-2"))])
           Updates = Returned.
Proof.
  refine (proj2 (program_survives_result (program (main ∅) open_all)
                   Updates (update_result "CREATED" "INC-2") _ _ _));
    vm_compute; reflexivity.
Defined.
